(** * The repair dispatch service (satellite/repair/repairer/repairer.go)

    The service is an effectful Go program: it talks to a semaphore, a
    repair queue, a segment repairer, an irreparable-segment store, a
    logger, a metrics sink and the clock, and it spawns goroutines.  It is
    embedded here as a program tree over the calls it makes ([prog]); the
    sequential meaning of a tree is the trace of calls it performs against
    an arbitrary environment ([exec]), and the concurrent meaning is an
    interleaving step relation over a pool of such trees that share the
    semaphore ([step]). *)

From Stdlib Require Import ZArith List String Bool Lia.
Import ListNotations.

Local Open Scope string_scope.
Local Open Scope list_scope.
Local Open Scope Z_scope.

(** * Definitions *)

(** ** package time *)

(** The part of Go's [time] package the worker uses. *)
Module time.

(** An instant, as nanoseconds since the zero instant of [time.Time]
    (January 1, year 1, 00:00:00 UTC).  The readings used by the worker
    carry no monotonic part ([UTC()] strips it). *)
Definition Time := Z.

(** [time.Duration] is an int64 count of nanoseconds. *)
Definition Duration := Z.

Definition minDuration : Duration := - 2 ^ 63.
Definition maxDuration : Duration := 2 ^ 63 - 1.

Definition IsZero (t : Time) : bool := t =? 0.

(** [t.Sub(u)]: the difference, saturated to the range of [Duration]. *)
Definition Sub (t u : Time) : Duration :=
  let d := t - u in
  if (minDuration <=? d) && (d <=? maxDuration) then d
  else if t <? u then minDuration else maxDuration.

(** [t.Unix()]: seconds since January 1, 1970 UTC. *)
Definition Unix (t : Time) : Z := t / 1000000000 - 62135596800.

End time.

(** ** Contexts *)

(** A [context.Context] is a handle.  [Background] is the root context,
    which is never cancelled; every other context is identified by the
    number the call that derived it returned. *)
Inductive Context : Type :=
| Background
| Derived (id : nat).

(** ** Protobuf messages (package internalpb) and the irreparable error *)

(** The declarations of [internalpb.InjuredSegment],
    [internalpb.IrreparableSegment] and [irreparableError] are not in
    repairer.go; they are modelled with the fields and getters the worker
    uses. *)

(** Modelled from the spec: the segment detail is an opaque diagnostic
    payload (a [*pb.Pointer]). *)
Definition Pointer := string.

(** The piece counts and [LostPieces] are [int32]; Go's [-] on them wraps
    around. *)
Definition int32_wrap (z : Z) : Z := (z + 2 ^ 31) mod 2 ^ 32 - 2 ^ 31.
Definition int32_sub (a b : Z) : Z := int32_wrap (a - b).
Definition is_int32 (z : Z) : Prop := - 2 ^ 31 <= z < 2 ^ 31.

Module internalpb.

(** Modelled from the spec: an injured segment has an opaque path and an
    insertion time, which is zero for entries queued before the field
    existed. *)
Record InjuredSegmentMsg : Type := mkInjuredSegment {
  Path_ : string;
  InsertedTime_ : time.Time
}.

(** [*internalpb.InjuredSegment]: a pointer, possibly nil. *)
Definition InjuredSegment := option InjuredSegmentMsg.

(** The generated getters return the zero value on a nil receiver. *)
Definition GetPath (seg : InjuredSegment) : string :=
  match seg with Some m => Path_ m | None => "" end.

Definition GetInsertedTime (seg : InjuredSegment) : time.Time :=
  match seg with Some m => InsertedTime_ m | None => 0 end.

(** Modelled from the spec: the record kept for a segment that cannot be
    repaired, with the fields the worker fills in. *)
Record IrreparableSegment : Type := mkIrreparableSegment {
  Path : string;
  SegmentDetail : Pointer;
  LostPieces : Z;
  LastRepairAttempt : Z;
  RepairAttemptCount : Z
}.

End internalpb.
Import internalpb.

(** Modelled from the spec: the irreparable error carries the numbers of
    pieces required and available and the segment detail; these are the
    fields the worker reads. *)
Record irreparableError : Type := mkIrreparableError {
  piecesAvailable : Z;
  piecesRequired : Z;
  segmentInfo : Pointer
}.

(** ** Errors (the Go [error] interface and package errs) *)

(** A non-nil error value.  A Go [error] is [option error], [None] being
    nil.  An error is a plain message, a formatted message about another
    error, an error tagged with a class of package errs, an
    [*irreparableError] (taken to be a non-nil pointer), or several errors
    combined. *)
#[warnings="-register-all"]
Inductive error : Type :=
| errorString (msg : string)
| fmtError (format : string) (arg : error)
| errorT (class : string) (err : error)
| irreparable (e : irreparableError)
| combinedError (es : list error).

Module errs.

(** [class.Has(err)]: some error of the wrapper chain of [err] belongs
    to [class]. *)
Fixpoint Has (class : string) (err : error) : bool :=
  match err with
  | errorT c inner => String.eqb c class || Has class inner
  | _ => false
  end.

(** [class.Wrap(err)] on a non-nil [err]: an error that already belongs
    to [class] at its head is returned as it is. *)
Definition Wrap (class : string) (err : error) : error :=
  match err with
  | errorT c _ => if String.eqb c class then err else errorT class err
  | _ => errorT class err
  end.

(** [class.New(format, arg)]. *)
Definition New (class : string) (format : string) (arg : error) : error :=
  errorT class (fmtError format arg).

Fixpoint sanitize (es : list (option error)) : list error :=
  match es with
  | [] => []
  | Some e :: rest => e :: sanitize rest
  | None :: rest => sanitize rest
  end.

(** [errs.Combine(es...)]: nil when every argument is nil, the error
    itself when one is not, a combined error otherwise. *)
Definition Combine (es : list (option error)) : option error :=
  match sanitize es with
  | [] => None
  | [e] => Some e
  | l => Some (combinedError l)
  end.

End errs.

(** The type assertion of [err] to a pointer to [irreparableError]: it looks
    at the dynamic type of the value itself and does not unwrap. *)
Definition asIrreparable (err : option error) : option irreparableError :=
  match err with
  | Some (irreparable e) => Some e
  | _ => None
  end.

(** [Error] is the error class of this package. *)
Definition Error : string := "repairer error".

(** Modelled from the spec: [storage.ErrEmptyQueue], the class of the
    distinguished signal that the queue is empty. *)
Definition ErrEmptyQueue : string := "empty queue".

(** ** Calls, programs and traces *)

(** The calls the service makes to its collaborators, indexed by the type
    of what the call returns. *)
Inductive call : Type -> Type :=
| mon_Task (name : string) (ctx : Context) : call Context
| mon_TaskDone (name : string) (err : option error) : call unit
| mon_Observe (name : string) (d : time.Duration) : call unit
| time_Now : call time.Time
| log_Error (msg : string) (err : error) : call unit
| log_Debug (msg : string) : call unit
| JobLimiter_Acquire (ctx : Context) (n : Z) : call (option error)
| JobLimiter_Release (n : Z) : call unit
| context_WithTimeout (parent : Context) (d : time.Duration) : call Context
| context_cancel (ctx : Context) : call unit
| queue_Select (ctx : Context) : call (InjuredSegment * option error)
| queue_Delete (ctx : Context) (seg : InjuredSegment) : call (option error)
| repairer_Repair (ctx : Context) (path : string) : call (bool * option error)
| irrDB_IncrementRepairAttempts (ctx : Context) (seg : IrreparableSegment)
    : call (option error)
| Loop_wait (ctx : Context) (interval : time.Duration)
    : call (option (option error)).

(** A program: it returns, calls a collaborator and continues with the
    answer, or starts a goroutine and continues.  [OutOfFuel] ends the
    finite unrolling of a loop that would go on. *)
Inductive prog (R : Type) : Type :=
| Ret (r : R)
| Call {X : Type} (c : call X) (k : X -> prog R)
| Go (job : prog unit) (k : prog R)
| OutOfFuel.

Arguments Ret {R} r.
Arguments Call {R X} c k.
Arguments Go {R} job k.
Arguments OutOfFuel {R}.

Fixpoint bind {R S : Type} (p : prog R) (f : R -> prog S) : prog S :=
  match p with
  | Ret r => f r
  | Call c k => Call c (fun x => bind (k x) f)
  | Go job k => Go job (bind k f)
  | OutOfFuel => OutOfFuel
  end.

Definition perform {X : Type} (c : call X) : prog X := Call c Ret.

Declare Scope prog_scope.
Delimit Scope prog_scope with prog.
Notation "x <- p ;; q" := (bind p (fun x => q))
  (at level 61, p at next level, right associativity) : prog_scope.
Notation "' pat <- p ;; q" := (bind p (fun x => match x with pat => q end))
  (at level 61, pat pattern, p at next level, right associativity) : prog_scope.
Notation "p ;; q" := (bind p (fun _ => q))
  (at level 61, right associativity) : prog_scope.
Local Open Scope prog_scope.

(** One performed call together with its answer. *)
Inductive event : Type :=
| E_mon_Task (name : string) (ctx ctx' : Context)
| E_mon_TaskDone (name : string) (err : option error)
| E_mon_Observe (name : string) (d : time.Duration)
| E_time_Now (t : time.Time)
| E_log_Error (msg : string) (err : error)
| E_log_Debug (msg : string)
| E_Acquire (ctx : Context) (n : Z) (res : option error)
| E_Release (n : Z)
| E_WithTimeout (parent : Context) (d : time.Duration) (ctx' : Context)
| E_cancel (ctx : Context)
| E_Select (ctx : Context) (seg : InjuredSegment) (res : option error)
| E_Delete (ctx : Context) (seg : InjuredSegment) (res : option error)
| E_Repair (ctx : Context) (path : string) (shouldDelete : bool)
    (res : option error)
| E_IncrementRepairAttempts (ctx : Context) (seg : IrreparableSegment)
    (res : option error)
| E_Loop_wait (ctx : Context) (interval : time.Duration)
    (res : option (option error))
| E_go (job : prog unit).

Definition ev {X : Type} (c : call X) : X -> event :=
  match c in call X return X -> event with
  | mon_Task name ctx => fun ctx' => E_mon_Task name ctx ctx'
  | mon_TaskDone name err => fun _ => E_mon_TaskDone name err
  | mon_Observe name d => fun _ => E_mon_Observe name d
  | time_Now => fun t => E_time_Now t
  | log_Error msg err => fun _ => E_log_Error msg err
  | log_Debug msg => fun _ => E_log_Debug msg
  | JobLimiter_Acquire ctx n => fun res => E_Acquire ctx n res
  | JobLimiter_Release n => fun _ => E_Release n
  | context_WithTimeout parent d => fun ctx' => E_WithTimeout parent d ctx'
  | context_cancel ctx => fun _ => E_cancel ctx
  | queue_Select ctx => fun r => E_Select ctx (fst r) (snd r)
  | queue_Delete ctx seg => fun res => E_Delete ctx seg res
  | repairer_Repair ctx path => fun r => E_Repair ctx path (fst r) (snd r)
  | irrDB_IncrementRepairAttempts ctx seg =>
      fun res => E_IncrementRepairAttempts ctx seg res
  | Loop_wait ctx interval => fun res => E_Loop_wait ctx interval res
  end.

(** An environment: how the collaborators answer each call, with a state
    of their own. *)
Definition handler (S : Type) : Type := forall X : Type, call X -> S -> X * S.

(** Sequential execution of a program against an environment: the trace
    of calls, the result ([None] when the unrolling ran out of fuel) and
    the final state of the environment.  A started goroutine is recorded
    and not run. *)
Fixpoint exec {S R : Type} (h : handler S) (p : prog R) (s : S)
  : list event * option R * S :=
  match p with
  | Ret r => ([], Some r, s)
  | Call c k =>
      let (x, s1) := h _ c s in
      let '(tr, r, s2) := exec h (k x) s1 in
      (ev c x :: tr, r, s2)
  | Go job k =>
      let '(tr, r, s2) := exec h k s in
      (E_go job :: tr, r, s2)
  | OutOfFuel => ([], None, s)
  end.

(** ** package semaphore *)

(** Modelled from the spec: the admission limiter is a weighted counting
    semaphore; [Acquire] takes its units or fails and takes nothing,
    [Release] gives units back. *)
Module semaphore.

Record Weighted : Type := mkWeighted { size : Z; cur : Z }.

Definition NewWeighted (n : Z) : Weighted := {| size := n; cur := 0 |}.

(** [Acquire] takes [n] units as soon as the semaphore has them. *)
Definition canAcquire (w : Weighted) (n : Z) : bool := n <=? size w - cur w.

Definition acquired (w : Weighted) (n : Z) : Weighted :=
  {| size := size w; cur := cur w + n |}.

(** [Release] gives [n] units back; it panics when more are released
    than are held. *)
Definition canRelease (w : Weighted) (n : Z) : bool := n <=? cur w.

Definition released (w : Weighted) (n : Z) : Weighted :=
  {| size := size w; cur := cur w - n |}.

End semaphore.

(** ** The service *)

(** The service reads [MaxRepair], [Interval] and [TotalTimeout]; the
    other options go to the segment repairer (as does the [float64] ratio
    [MaxExcessRateOptimalThreshold], which is left out). *)
Record Config : Type := mkConfig {
  MaxRepair : Z;
  Interval : time.Duration;
  Timeout : time.Duration;
  DownloadTimeout : time.Duration;
  TotalTimeout : time.Duration;
  MaxBufferMem : Z;
  InMemoryRepair : bool
}.

(** The collaborators of the service (logger, queue, repairer, store, poll
    cycle) are the environment; the service itself is its configuration
    and its semaphore. *)
Record Service : Type := mkService {
  config : Config;
  JobLimiter : semaphore.Weighted
}.

Definition NewService (config : Config) : Service :=
  {| config := config;
     JobLimiter := semaphore.NewWeighted (MaxRepair config) |}.

(** [defer mon.Task()(&ctx)(&err)]: the task is opened on entry, which
    replaces [ctx], and closed with the function's error on exit. *)
Definition mon_Task_defer (name : string) (ctx : Context)
    (body : Context -> prog (option error)) : prog (option error) :=
  ctx <- perform (mon_Task name ctx);;
  err <- body ctx;;
  perform (mon_TaskDone name err);;
  Ret err.

Section WithService.

Variable service : Service.

Definition worker (ctx : Context) (seg : InjuredSegment)
  : prog (option error) :=
  mon_Task_defer "worker" ctx (fun ctx =>
    workerStartTime <- perform time_Now;;
    perform (log_Debug "Limiter running repair on segment");;
    '(shouldDelete, err) <- perform (repairer_Repair ctx (GetPath seg));;
    '(shouldDelete, err) <-
      (if shouldDelete : bool then
         shouldDelete <-
           match asIrreparable err, err with
           | Some irreparableErr, Some e =>
               perform (log_Error
                 "segment could not be repaired! adding to irreparableDB for more attention"
                 e);;
               now <- perform time_Now;;
               let segmentInfo :=
                 {| Path := GetPath seg;
                    SegmentDetail := segmentInfo irreparableErr;
                    LostPieces := int32_sub (piecesRequired irreparableErr)
                                            (piecesAvailable irreparableErr);
                    LastRepairAttempt := time.Unix now;
                    RepairAttemptCount := 1 |} in
               err <- perform (irrDB_IncrementRepairAttempts ctx segmentInfo);;
               match err with
               | Some e' =>
                   perform (log_Error
                     "failed to add segment to irreparableDB! will leave in repair queue"
                     e');;
                   Ret false
               | None => Ret shouldDelete
               end
           | _, Some e =>
               perform (log_Error "unexpected error repairing segment!" e);;
               Ret shouldDelete
           | _, None =>
               perform (log_Debug "removing repaired segment from repair queue");;
               Ret shouldDelete
           end;;
         if shouldDelete : bool then
           delErr <- perform (queue_Delete ctx seg);;
           match delErr with
           | Some d =>
               Ret (shouldDelete,
                    errs.Combine
                      [err;
                       Some (errs.New Error
                               "failed to remove segment from queue: %v" d)])
           | None => Ret (shouldDelete, err)
           end
         else Ret (shouldDelete, err)
       else Ret (shouldDelete, err));;
    match err with
    | Some e => Ret (Some (errs.Wrap Error e))
    | None =>
        repairedTime <- perform time_Now;;
        let timeForRepair := time.Sub repairedTime workerStartTime in
        perform (mon_Observe "time_for_repair" timeForRepair);;
        let insertedTime := GetInsertedTime seg in
        (if negb (time.IsZero insertedTime) then
           let timeSinceQueued := time.Sub workerStartTime insertedTime in
           perform (mon_Observe "time_since_checker_queue" timeSinceQueued)
         else Ret tt);;
        Ret None
    end).

(** The goroutine started by [process]: it inherits the semaphore unit
    and the cancel function and gives both back when the worker is
    done. *)
Definition job (ctx : Context) (seg : InjuredSegment) : prog unit :=
  err <- worker ctx seg;;
  match err with
  | Some e => perform (log_Error "repair worker failed:" e)
  | None => Ret tt
  end;;
  perform (context_cancel ctx);;
  perform (JobLimiter_Release 1).

Definition process (ctx : Context) : prog (option error) :=
  mon_Task_defer "process" ctx (fun ctx =>
    err <- perform (JobLimiter_Acquire ctx 1);;
    match err with
    | Some e => Ret (Some e)
    | None =>
        ctx <- perform (context_WithTimeout ctx (TotalTimeout (config service)));;
        '(seg, err) <- perform (queue_Select ctx);;
        match err with
        | Some e =>
            perform (JobLimiter_Release 1);;
            perform (context_cancel ctx);;
            Ret (Some e)
        | None =>
            perform (log_Debug "Retrieved segment from repair queue");;
            Go (job ctx seg) (Ret None)
        end
    end).

(** The [for] loop, unrolled [fuel] times. *)
Fixpoint processWhileQueueHasItems (fuel : nat) (ctx : Context)
  : prog (option error) :=
  match fuel with
  | O => OutOfFuel
  | S fuel =>
      err <- process ctx;;
      match err with
      | Some e =>
          if errs.Has ErrEmptyQueue e then Ret None
          else
            perform (log_Error "process" (errs.Wrap Error e));;
            Ret (Some e)
      | None => processWhileQueueHasItems fuel ctx
      end
  end.

Definition WaitForPendingRepairs : prog unit :=
  _ <- perform (JobLimiter_Acquire Background (MaxRepair (config service)));;
  perform (JobLimiter_Release (MaxRepair (config service))).

(** Modelled from the spec: [service.Loop.Run(ctx, fn)] of the poll
    cycle.  [fn] runs at once and again after each interval, until it
    fails, or the cycle is stopped or its context cancelled while it waits
    ([Loop_wait] then answers with what [Run] returns). *)
Fixpoint Loop_Run (fuel : nat) (ctx : Context)
    (fn : Context -> prog (option error)) : prog (option error) :=
  match fuel with
  | O => OutOfFuel
  | S fuel =>
      err <- fn ctx;;
      match err with
      | Some e => Ret (Some e)
      | None =>
          stop <- perform (Loop_wait ctx (Interval (config service)));;
          match stop with
          | Some res => Ret res
          | None => Loop_Run fuel ctx fn
          end
      end
  end.

Definition Run (fuel : nat) (ctx : Context) : prog (option error) :=
  mon_Task_defer "Run" ctx (fun ctx =>
    err <- Loop_Run fuel ctx (processWhileQueueHasItems fuel);;
    WaitForPendingRepairs;;
    Ret err).

End WithService.

(** ** Reading a trace *)

(** The segments handed to the queue's [Delete], in call order. *)
Fixpoint deletes (tr : list event) : list InjuredSegment :=
  match tr with
  | [] => []
  | E_Delete _ seg _ :: tr => seg :: deletes tr
  | _ :: tr => deletes tr
  end.

(** The records handed to the irreparable store, in call order. *)
Fixpoint irrWrites (tr : list event) : list IrreparableSegment :=
  match tr with
  | [] => []
  | E_IncrementRepairAttempts _ seg _ :: tr => seg :: irrWrites tr
  | _ :: tr => irrWrites tr
  end.

(** The timing observations, by metric name. *)
Fixpoint observations (tr : list event) : list (string * time.Duration) :=
  match tr with
  | [] => []
  | E_mon_Observe name d :: tr => (name, d) :: observations tr
  | _ :: tr => observations tr
  end.

(** The clock readings. *)
Fixpoint clock (tr : list event) : list time.Time :=
  match tr with
  | [] => []
  | E_time_Now t :: tr => t :: clock tr
  | _ :: tr => clock tr
  end.

(** The semaphore units released and the goroutines started. *)
Fixpoint releases (tr : list event) : list Z :=
  match tr with
  | [] => []
  | E_Release n :: tr => n :: releases tr
  | _ :: tr => releases tr
  end.

Fixpoint spawned (tr : list event) : list (prog unit) :=
  match tr with
  | [] => []
  | E_go j :: tr => j :: spawned tr
  | _ :: tr => spawned tr
  end.

Fixpoint cancels (tr : list event) : list Context :=
  match tr with
  | [] => []
  | E_cancel c :: tr => c :: cancels tr
  | _ :: tr => cancels tr
  end.

(** [Repair] returned [(shouldDelete, err)] in the run with trace [tr]. *)
Definition Repair_returned (tr : list event) (shouldDelete : bool)
    (err : option error) : Prop :=
  exists ctx path, In (E_Repair ctx path shouldDelete err) tr.

(** ** Goroutines sharing the semaphore *)

(** What a call does to the semaphore. *)
Inductive sem_op : Type :=
| OpAcquire (ctx : Context) (n : Z)
| OpRelease (n : Z)
| OpOther.

Definition op_of {X : Type} (c : call X) : sem_op :=
  match c with
  | JobLimiter_Acquire ctx n => OpAcquire ctx n
  | JobLimiter_Release n => OpRelease n
  | _ => OpOther
  end.

(** [sem_step c x w]: the semaphore after call [c] was answered [x] in
    state [w]; [None] when that answer cannot come now.  [Acquire] returns
    nil only once it took its units, and an error only because its context
    is done, which [Background] never is; [Release] panics when it gives
    back more than is held. *)
Definition sem_step {X : Type} (c : call X)
  : X -> semaphore.Weighted -> option semaphore.Weighted :=
  match c in call X return X -> semaphore.Weighted -> option semaphore.Weighted with
  | JobLimiter_Acquire ctx n => fun res w =>
      match res with
      | None =>
          if semaphore.canAcquire w n then Some (semaphore.acquired w n)
          else None
      | Some _ =>
          match ctx with
          | Background => None
          | Derived _ => Some w
          end
      end
  | JobLimiter_Release n => fun _ w =>
      if semaphore.canRelease w n then Some (semaphore.released w n) else None
  | _ => fun _ w => Some w
  end.

(** The units of the semaphore a thread holds more after a call. *)
Definition units {X : Type} (c : call X) : X -> Z :=
  match c in call X return X -> Z with
  | JobLimiter_Acquire _ n => fun res =>
      match res with None => n | Some _ => 0 end
  | JobLimiter_Release n => fun _ => - n
  | _ => fun _ => 0
  end.

(** The answers a call can get at all: [Acquire] on [Background] cannot
    fail. *)
Definition possible {X : Type} (c : call X) : X -> Prop :=
  match c in call X return X -> Prop with
  | JobLimiter_Acquire Background _ => fun res => res = None
  | _ => fun _ => True
  end.

(** The service as a pool of threads: the goroutine that runs [Run], and
    the goroutines started so far. *)
Record state : Type := mkState {
  sem : semaphore.Weighted;
  main : prog (option error);
  jobs : list (prog unit)
}.

(** One step of one thread: the next call is answered, or a goroutine is
    started. *)
Definition thread_step {R : Type} (w : semaphore.Weighted) (p : prog R)
    (w' : semaphore.Weighted) (p' : prog R) (new : list (prog unit)) : Prop :=
  match p with
  | Ret _ => False
  | OutOfFuel => False
  | Call c k => exists x, sem_step c x w = Some w' /\ p' = k x /\ new = []
  | Go j k => w' = w /\ p' = k /\ new = [j]
  end.

Inductive step : state -> state -> Prop :=
| step_main w p js w' p' new :
    thread_step w p w' p' new ->
    step (mkState w p js) (mkState w' p' (js ++ new))
| step_job w p js1 j js2 w' j' new :
    thread_step w j w' j' new ->
    step (mkState w p (js1 ++ j :: js2))
         (mkState w' p (js1 ++ j' :: js2 ++ new)).

Inductive reachable (st0 : state) : state -> Prop :=
| reach_refl : reachable st0 st0
| reach_step st st' : reachable st0 st -> step st st' -> reachable st0 st'.

Definition finished {R : Type} (p : prog R) : bool :=
  match p with Ret _ => true | _ => false end.

(** The repair jobs in flight: the started goroutines that have not
    returned. *)
Fixpoint executing (js : list (prog unit)) : nat :=
  match js with
  | [] => O
  | j :: js => if finished j then executing js else Datatypes.S (executing js)
  end.

(** The service as [NewService] and [Run] set it off. *)
Definition start (cfg : Config) (fuel : nat) (ctx : Context) : state :=
  let service := NewService cfg in
  {| sem := JobLimiter service; main := Run service fuel ctx; jobs := [] |}.

(** *** Who holds the units *)

(** [job_ok p]: [p] holds one unit; it leaves the semaphore alone, starts
    no goroutine, and its last call gives the unit back. *)
Fixpoint job_ok (p : prog unit) : Prop :=
  match p with
  | Ret _ => False
  | OutOfFuel => False
  | Go _ _ => False
  | Call c k =>
      match op_of c with
      | OpRelease n => n = 1 /\ forall x, k x = Ret tt
      | OpAcquire _ _ => False
      | OpOther => forall x, job_ok (k x)
      end
  end.

(** [quiet p post]: [p] leaves the semaphore alone, starts no goroutine
    and returns, with a result in [post]. *)
Fixpoint quiet {R : Type} (p : prog R) (post : R -> Prop) : Prop :=
  match p with
  | Ret r => post r
  | OutOfFuel => False
  | Go _ _ => False
  | Call c k =>
      match op_of c with
      | OpOther => forall x, quiet (k x) post
      | _ => False
      end
  end.

(** [holds p u post]: run by a thread that holds [u] units, [p] never
    gives back more than it holds, hands one unit to each goroutine it
    starts, and returns [r] holding [u'] units with [post r u']. *)
Fixpoint holds {R : Type} (p : prog R) (u : Z) (post : R -> Z -> Prop) : Prop :=
  match p with
  | Ret r => post r u
  | OutOfFuel => True
  | Go j k => 1 <= u /\ job_ok j /\ holds k (u - 1) post
  | Call c k =>
      match op_of c with
      | OpAcquire _ n => 0 <= n
      | OpRelease n => 0 <= n <= u
      | OpOther => True
      end /\
      forall x, possible c x -> holds (k x) (u + units c x) post
  end.

(** *** The invariant *)

Definition job_inv (j : prog unit) : Prop := finished j = true \/ job_ok j.

(** The units taken from the semaphore are those the main goroutine holds
    plus one for every job in flight, and never more than its size. *)
Definition Inv (N : Z) (st : state) : Prop :=
  semaphore.size (sem st) = N /\
  semaphore.cur (sem st) <= N /\
  Forall job_inv (jobs st) /\
  exists u,
    0 <= u /\
    holds (main st) u (fun _ u' => u' = 0) /\
    semaphore.cur (sem st) = u + Z.of_nat (executing (jobs st)).

(** ** The drain loop, step by step *)

Section Drain.

Variable service : Service.
Context {S : Type} (h : handler S).
Variable ctx : Context.

(** [drained n s tr s1]: from [s], [n] successive runs of [process]
    return nil; together they perform [tr] and leave the environment in
    [s1]. *)
Inductive drained : nat -> S -> list event -> S -> Prop :=
| drained_O s : drained O s [] s
| drained_S n s tr1 s1 tr2 s2 :
    exec h (process service ctx) s = (tr1, Some None, s1) ->
    drained n s1 tr2 s2 ->
    drained (Datatypes.S n) s (tr1 ++ tr2) s2.

(** What the drain loop does with the error of the step that failed. *)
Definition drain_log (e : error) : list event :=
  if errs.Has ErrEmptyQueue e then []
  else [E_log_Error "process" (errs.Wrap Error e)].

Definition drain_result (e : error) : option error :=
  if errs.Has ErrEmptyQueue e then None else Some e.

End Drain.

(** ** A scripted environment *)

(** A small environment to run the service against: a counter that ticks
    at every call (it numbers the derived contexts and moves the clock by a
    second) and the segments still in the queue.  The answers of the
    repairer, the irreparable store and the queue's [Delete] are
    scripted. *)
Record world : Type := mkWorld {
  ticks : nat;
  pending : list InjuredSegmentMsg
}.

Record script : Type := mkScript {
  Acquire_answer : option error;
  Repair_answer : bool * option error;
  IncrementRepairAttempts_answer : option error;
  Delete_answer : option error
}.

Definition tick (w : world) : world :=
  {| ticks := S (ticks w); pending := pending w |}.

Definition clock_start : time.Time := 63800000000 * 1000000000.

Definition scripted (sc : script) : handler world :=
  fun X c =>
    match c in call X return world -> X * world with
    | mon_Task _ _ => fun w => (Derived (ticks w), tick w)
    | mon_TaskDone _ _ => fun w => (tt, tick w)
    | mon_Observe _ _ => fun w => (tt, tick w)
    | time_Now =>
        fun w => (clock_start + Z.of_nat (ticks w) * 1000000000, tick w)
    | log_Error _ _ => fun w => (tt, tick w)
    | log_Debug _ => fun w => (tt, tick w)
    | JobLimiter_Acquire _ _ => fun w => (Acquire_answer sc, tick w)
    | JobLimiter_Release _ => fun w => (tt, tick w)
    | context_WithTimeout _ _ => fun w => (Derived (ticks w), tick w)
    | context_cancel _ => fun w => (tt, tick w)
    | queue_Select _ =>
        fun w =>
          match pending w with
          | m :: rest =>
              ((Some m, None), {| ticks := S (ticks w); pending := rest |})
          | [] =>
              ((None, Some (errorT ErrEmptyQueue (errorString "empty queue"))),
               tick w)
          end
    | queue_Delete _ _ => fun w => (Delete_answer sc, tick w)
    | repairer_Repair _ _ => fun w => (Repair_answer sc, tick w)
    | irrDB_IncrementRepairAttempts _ _ =>
        fun w => (IncrementRepairAttempts_answer sc, tick w)
    | Loop_wait _ _ => fun w => (Some None, tick w)
    end.

Definition trace_of {S R : Type} (h : handler S) (p : prog R) (s : S)
  : list event := fst (fst (exec h p s)).

Definition result_of {S R : Type} (h : handler S) (p : prog R) (s : S)
  : option R := snd (fst (exec h p s)).

Definition final_of {S R : Type} (h : handler S) (p : prog R) (s : S)
  : S := snd (exec h p s).

(** Sample data: a segment queued before insertion times were recorded, a
    segment with an insertion time, and the irreparable error of the
    specification's example (10 pieces required, 3 available). *)
Definition legacy_segment : InjuredSegment :=
  Some {| Path_ := "bucket/legacy"; InsertedTime_ := 0 |}.

Definition queued_segment : InjuredSegment :=
  Some {| Path_ := "bucket/queued";
          InsertedTime_ := clock_start - 60 * 1000000000 |}.

Definition ten_three : irreparableError :=
  {| piecesAvailable := 3; piecesRequired := 10; segmentInfo := "pointer" |}.

Definition repaired : script :=
  {| Acquire_answer := None;
     Repair_answer := (true, None);
     IncrementRepairAttempts_answer := None;
     Delete_answer := None |}.

Definition irreparable_stored : script :=
  {| Acquire_answer := None;
     Repair_answer := (true, Some (irreparable ten_three));
     IncrementRepairAttempts_answer := None;
     Delete_answer := None |}.

Definition irreparable_store_down : script :=
  {| Acquire_answer := None;
     Repair_answer := (true, Some (irreparable ten_three));
     IncrementRepairAttempts_answer := Some (errorString "store unavailable");
     Delete_answer := None |}.

Definition repair_failed : script :=
  {| Acquire_answer := None;
     Repair_answer := (false, Some (errorString "download failed"));
     IncrementRepairAttempts_answer := None;
     Delete_answer := None |}.

Definition empty_world : world := {| ticks := O; pending := [] |}.

Definition two_pending : world :=
  {| ticks := O;
     pending := [ {| Path_ := "bucket/a"; InsertedTime_ := 0 |};
                  {| Path_ := "bucket/b"; InsertedTime_ := 0 |} ] |}.

Definition two_workers : Config :=
  {| MaxRepair := 2;
     Interval := 300 * 1000000000;
     Timeout := 300 * 1000000000;
     DownloadTimeout := 300 * 1000000000;
     TotalTimeout := 2700 * 1000000000;
     MaxBufferMem := 4000000;
     InMemoryRepair := false |}.

(** The main goroutine run for [n] steps, its calls answered by the
    environment [h]; it stops where the semaphore does not allow the
    answer (a blocked [Acquire]).  The started goroutines are left where
    they start. *)
Fixpoint simulate_main {S : Type} (h : handler S) (n : nat) (st : state)
    (s : S) : state * S :=
  match n with
  | O => (st, s)
  | Datatypes.S n =>
      match main st with
      | Call c k =>
          let (x, s1) := h _ c s in
          match sem_step c x (sem st) with
          | Some w' => simulate_main h n (mkState w' (k x) (jobs st)) s1
          | None => (st, s)
          end
      | Go j k =>
          simulate_main h n (mkState (sem st) k (jobs st ++ [j])) s
      | _ => (st, s)
      end
  end.

Definition three_pending : world :=
  {| ticks := O;
     pending := [ {| Path_ := "bucket/a"; InsertedTime_ := 0 |};
                  {| Path_ := "bucket/b"; InsertedTime_ := 0 |};
                  {| Path_ := "bucket/c"; InsertedTime_ := 0 |} ] |}.

Definition shutting_down : script :=
  {| Acquire_answer := Some (errorString "context canceled");
     Repair_answer := (true, None);
     IncrementRepairAttempts_answer := None;
     Delete_answer := None |}.

(** ** More readings of a trace *)

(** The context a call to the repairer, the irreparable store or the
    queue's [Delete] was made with. *)
Definition downstream_ctx (e : event) : option Context :=
  match e with
  | E_Repair c _ _ _ => Some c
  | E_Delete c _ _ => Some c
  | E_IncrementRepairAttempts c _ _ => Some c
  | _ => None
  end.

(** The calls to [Repair]: context and segment path. *)
Fixpoint repairs (tr : list event) : list (Context * string) :=
  match tr with
  | [] => []
  | E_Repair c path _ _ :: tr => (c, path) :: repairs tr
  | _ :: tr => repairs tr
  end.

(** The units asked of the semaphore, granted or not. *)
Fixpoint acquires (tr : list event) : list Z :=
  match tr with
  | [] => []
  | E_Acquire _ n _ :: tr => n :: acquires tr
  | _ :: tr => acquires tr
  end.

(** ** Shutdown *)

(** The units a thread is about to give back, if its next call is a
    [Release]. *)
Definition next_release {R : Type} (p : prog R) : option Z :=
  match p with
  | Call c _ =>
      match op_of c with
      | OpRelease n => Some n
      | _ => None
      end
  | _ => None
  end.



(** More scripts: the queue's [Delete] fails after a repair, and [Repair]
    fails with an error that is not an irreparable error but asks for the
    segment's removal. *)
Definition delete_fails : script :=
  {| Acquire_answer := None;
     Repair_answer := (true, None);
     IncrementRepairAttempts_answer := None;
     Delete_answer := Some (errorString "queue unavailable") |}.

Definition unexpected_failure : script :=
  {| Acquire_answer := None;
     Repair_answer := (true, Some (errorString "segment no longer exists"));
     IncrementRepairAttempts_answer := None;
     Delete_answer := None |}.

(** * The notification endpoint (satellite/notification/endpoint.go) *)

(** The endpoint sends a message to a node over RPC and (one day) by email,
    under the rate limits its service keeps per node.  It is embedded like
    the repair service: a program tree over the calls it makes to the
    service's limiter, the dialer, the node's client and the logger. *)

(** ** Messages *)

(** Modelled from the spec: the declarations of package pb are not in
    endpoint.go.  A node id is identified with its [String()] form; a
    message carries the fields the endpoint reads and writes; a response
    is an opaque payload, empty for [&pb.NotificationResponse{}]. *)
Definition NodeID := string.

Inductive LogLevel : Type :=
| LogLevel_INFO
| LogLevel_other (n : Z).

Record NotificationMessage : Type := mkNotificationMessage {
  NodeId : NodeID;
  Address : string;
  Loglevel : LogLevel;
  Message : string
}.

Record NotificationResponse : Type := mkNotificationResponse {
  response_payload : string
}.

Definition empty_response : NotificationResponse :=
  {| response_payload := "" |}.

Record Node : Type := mkNode {
  Id : NodeID;
  Node_Address : string
}.

(** A connected client, as [newClient] returns it. *)
Definition Client := nat.

(** A field of a log entry: [zap.String], [zap.Int], [zap.Strings], and
    [zap.String(key, err.Error())], which carries the text of an error. *)
Inductive field : Type :=
| zap_String (key value : string)
| zap_Int (key : string) (value : Z)
| zap_Strings (key : string) (values : list string)
| zap_ErrorText (key : string) (err : error).

(** ** Calls and programs *)

(** The answer of [newClient]: the client, or the error together with
    whether its dynamic type implements [net.Error]. *)
Definition dial_result : Type := Client * option (error * bool).

Inductive ncall : Type -> Type :=
| log_entry (level msg : string) (fields : list field) : ncall unit
| service_CheckRPCLimit (id : string) : ncall bool
| service_CheckEmailLimit (id : string) : ncall bool
| service_IncrementLimiter (id : string) (eSent rSent : bool) : ncall unit
| newClient (ctx : Context) (address : string) (id : NodeID)
    : ncall dial_result
| client_ProcessNotification (client : Client) (ctx : Context)
    (message : NotificationMessage)
    : ncall (option NotificationResponse * option error)
| client_Close (client : Client) : ncall (option error).

Inductive nprog (R : Type) : Type :=
| NRet (r : R)
| NCall {X : Type} (c : ncall X) (k : X -> nprog R).

Arguments NRet {R} r.
Arguments NCall {R X} c k.

Fixpoint nbind {R T : Type} (p : nprog R) (f : R -> nprog T) : nprog T :=
  match p with
  | NRet r => f r
  | NCall c k => NCall c (fun x => nbind (k x) f)
  end.

Definition nperform {X : Type} (c : ncall X) : nprog X := NCall c NRet.

Declare Scope nprog_scope.
Delimit Scope nprog_scope with nprog.
Notation "x <- p ;; q" := (nbind p (fun x => q))
  (at level 61, p at next level, right associativity) : nprog_scope.
Notation "' pat <- p ;; q" := (nbind p (fun x => match x with pat => q end))
  (at level 61, pat pattern, p at next level, right associativity)
  : nprog_scope.
Notation "p ;; q" := (nbind p (fun _ => q))
  (at level 61, right associativity) : nprog_scope.

Inductive nevent : Type :=
| N_log (level msg : string) (fields : list field)
| N_CheckRPCLimit (id : string) (allowed : bool)
| N_CheckEmailLimit (id : string) (allowed : bool)
| N_IncrementLimiter (id : string) (eSent rSent : bool)
| N_newClient (ctx : Context) (address : string) (id : NodeID)
    (res : dial_result)
| N_ProcessNotification (client : Client) (ctx : Context)
    (message : NotificationMessage) (resp : option NotificationResponse)
    (err : option error)
| N_Close (client : Client) (err : option error).

Definition nev {X : Type} (c : ncall X) : X -> nevent :=
  match c in ncall X return X -> nevent with
  | log_entry level msg fields => fun _ => N_log level msg fields
  | service_CheckRPCLimit id => fun b => N_CheckRPCLimit id b
  | service_CheckEmailLimit id => fun b => N_CheckEmailLimit id b
  | service_IncrementLimiter id e r => fun _ => N_IncrementLimiter id e r
  | newClient ctx address id => fun res => N_newClient ctx address id res
  | client_ProcessNotification cl ctx m =>
      fun res => N_ProcessNotification cl ctx m (fst res) (snd res)
  | client_Close cl => fun err => N_Close cl err
  end.

Definition nhandler (S : Type) : Type :=
  forall X : Type, ncall X -> S -> X * S.

Fixpoint nexec {S R : Type} (h : nhandler S) (p : nprog R) (s : S)
  : list nevent * R * S :=
  match p with
  | NRet r => ([], r, s)
  | NCall c k =>
      let (x, s1) := h _ c s in
      let '(tr, r, s2) := nexec h (k x) s1 in
      (nev c x :: tr, r, s2)
  end.

(** ** The endpoint *)

(** Go's [int] addition on the counter of the broadcast, with its
    wrap-around. *)
Definition int64_wrap (z : Z) : Z := (z + 2 ^ 63) mod 2 ^ 64 - 2 ^ 63.

Section Endpoint.

(** The error class [Error] of package notification is declared outside
    endpoint.go; its name is a parameter. *)
Variable notification_Error : string.

Local Open Scope nprog_scope.

(** The [%s] of the two error formats is filled in with the address; the
    deferred function closes the client after the RPC and combines the two
    errors into the named result. *)
Definition processNotificationRPC (ctx : Context)
    (message : NotificationMessage)
  : nprog (option NotificationResponse * option error) :=
  '(client, err) <- nperform (newClient ctx (Address message) (NodeId message));;
  match err with
  | Some (e, is_net_Error) =>
      if is_net_Error : bool then
        NRet (Some empty_response,
              Some (errs.New notification_Error
                      ("failed to connect to " ++ Address message ++ ": %v")
                      e))
      else
        nperform (log_entry "warn" "internal error" [zap_ErrorText "error" e]);;
        NRet (Some empty_response,
              Some (errorT notification_Error
                      (errorString
                         ("couldn't connect to client at addr: "
                          ++ Address message ++ " due to internal error."))))
  | None =>
      '(resp, err) <- nperform (client_ProcessNotification client ctx message);;
      closeErr <- nperform (client_Close client);;
      NRet (resp, errs.Combine [err; closeErr])
  end.

Definition processNotificationEmail (ctx : Context)
    (message : NotificationMessage) : nprog (option error) :=
  NRet None.

Definition ProcessNotification (ctx : Context) (message : NotificationMessage)
  : nprog (option NotificationResponse * option error) :=
  nperform (log_entry "debug" "sending to node"
              [zap_String "address" (Address message);
               zap_String "message" (Message message)]);;
  let finish msg eSent rSent :=
    nperform (service_IncrementLimiter (NodeId message) eSent rSent);;
    NRet (msg, None) in
  let email msg rSent :=
    allowed <- nperform (service_CheckEmailLimit (NodeId message));;
    if allowed : bool then
      err <- processNotificationEmail ctx message;;
      match err with
      | Some e => NRet (msg, Some e)
      | None => finish msg true rSent
      end
    else finish msg false rSent in
  allowed <- nperform (service_CheckRPCLimit (NodeId message));;
  if allowed : bool then
    '(msg, err) <- processNotificationRPC ctx message;;
    match err with
    | Some e => NRet (msg, Some e)
    | None => email msg true
    end
  else email None false.

(** The [for] loop of [sendBroadcastNotification], with its two
    variables. *)
Fixpoint broadcast (ctx : Context) (message : string) (ids : list Node)
    (sentCount : Z) (failed : list string) : nprog (Z * list string) :=
  match ids with
  | [] => NRet (sentCount, failed)
  | node :: ids =>
      let mess :=
        {| NodeId := Id node;
           Address := Node_Address node;
           Loglevel := LogLevel_INFO;
           Message := message |} in
      '(_, err) <- ProcessNotification ctx mess;;
      let failed :=
        match err with
        | Some _ => failed ++ [Id node]
        | None => failed
        end in
      broadcast ctx message ids (int64_wrap (sentCount + 1)) failed
  end.

Definition sendBroadcastNotification (ctx : Context) (message : string)
    (ids : list Node) : nprog unit :=
  '(sentCount, failed) <- broadcast ctx message ids 0 [];;
  nperform (log_entry "info" "sent to nodes" [zap_Int "count" sentCount]);;
  nperform (log_entry "debug" "notification to the following nodes failed"
              [zap_Strings "nodeIDs" failed]).

Local Close Scope nprog_scope.

End Endpoint.

(** ** Reading a trace of the endpoint *)

Fixpoint increments (tr : list nevent) : list (string * bool * bool) :=
  match tr with
  | [] => []
  | N_IncrementLimiter id e r :: tr => (id, e, r) :: increments tr
  | _ :: tr => increments tr
  end.

Fixpoint email_checks (tr : list nevent) : list string :=
  match tr with
  | [] => []
  | N_CheckEmailLimit id _ :: tr => id :: email_checks tr
  | _ :: tr => email_checks tr
  end.

Fixpoint dials (tr : list nevent) : list (string * NodeID) :=
  match tr with
  | [] => []
  | N_newClient _ address id _ :: tr => (address, id) :: dials tr
  | _ :: tr => dials tr
  end.

Fixpoint closes (tr : list nevent) : list Client :=
  match tr with
  | [] => []
  | N_Close cl _ :: tr => cl :: closes tr
  | _ :: tr => closes tr
  end.

Fixpoint sends (tr : list nevent) : list Client :=
  match tr with
  | [] => []
  | N_ProcessNotification cl _ _ _ _ :: tr => cl :: sends tr
  | _ :: tr => sends tr
  end.

(** The message [sendBroadcastNotification] builds for a node. *)
Definition broadcast_message (message : string) (node : Node)
  : NotificationMessage :=
  {| NodeId := Id node;
     Address := Node_Address node;
     Loglevel := LogLevel_INFO;
     Message := message |}.

Section Notified.

Variable notification_Error : string.
Context {S : Type} (h : nhandler S).
Variables (ctx : Context) (message : string).

(** [notified ids s tr failed s1]: from [s], [ProcessNotification] is run
    for the nodes [ids] in turn; the runs perform [tr], leave the
    environment in [s1], and [failed] lists the nodes for which it
    returned an error. *)
Inductive notified : list Node -> S -> list nevent -> list string -> S -> Prop :=
| notified_nil s : notified [] s [] [] s
| notified_cons node ids s tr1 msg err s1 tr2 failed s2 :
    nexec h (ProcessNotification notification_Error ctx
               (broadcast_message message node)) s
      = (tr1, (msg, err), s1) ->
    notified ids s1 tr2 failed s2 ->
    notified (node :: ids) s (tr1 ++ tr2)
             (match err with
              | Some _ => Id node :: failed
              | None => failed
              end) s2.

End Notified.

(** A scripted environment for the endpoint: the limiter allows what the
    script says, dialing fails for the addresses the script lists, the
    node answers with the script's response, and closing fails or not. *)
Record nscript : Type := mkNscript {
  rpc_allowed : bool;
  email_allowed : bool;
  unreachable : list string;
  dial_error_is_net : bool;
  send_error : option error;
  close_error : option error
}.

Definition nscripted (sc : nscript) : nhandler nat :=
  fun X c =>
    match c in ncall X return nat -> X * nat with
    | log_entry _ _ _ => fun n => (tt, S n)
    | service_CheckRPCLimit _ => fun n => (rpc_allowed sc, S n)
    | service_CheckEmailLimit _ => fun n => (email_allowed sc, S n)
    | service_IncrementLimiter _ _ _ => fun n => (tt, S n)
    | newClient _ address _ =>
        fun n =>
          if existsb (String.eqb address) (unreachable sc)
          then ((n, Some (errorString "dial tcp: connection refused",
                          dial_error_is_net sc)), S n)
          else ((n, None), S n)
    | client_ProcessNotification _ _ _ =>
        fun n => ((Some {| response_payload := "ok" |}, send_error sc), S n)
    | client_Close _ => fun n => (close_error sc, S n)
    end.

Definition all_fine : nscript :=
  {| rpc_allowed := true; email_allowed := true; unreachable := [];
     dial_error_is_net := true; send_error := None; close_error := None |}.

Definition node_b_down : nscript :=
  {| rpc_allowed := true; email_allowed := true; unreachable := ["b:7777"];
     dial_error_is_net := true; send_error := None; close_error := None |}.

Definition dialer_broken : nscript :=
  {| rpc_allowed := true; email_allowed := true; unreachable := ["a:7777"];
     dial_error_is_net := false; send_error := None; close_error := None |}.

Definition close_fails : nscript :=
  {| rpc_allowed := true; email_allowed := false; unreachable := [];
     dial_error_is_net := true; send_error := None;
     close_error := Some (errorString "close: broken pipe") |}.

Definition hello_a : NotificationMessage :=
  {| NodeId := "node-a"; Address := "a:7777";
     Loglevel := LogLevel_INFO; Message := "hello" |}.

Definition three_nodes : list Node :=
  [ {| Id := "node-a"; Node_Address := "a:7777" |};
    {| Id := "node-b"; Node_Address := "b:7777" |};
    {| Id := "node-c"; Node_Address := "c:7777" |} ].


Definition trace_of_n {S R : Type} (h : nhandler S) (p : nprog R) (s : S)
  : list nevent := fst (fst (nexec h p s)).

Definition result_of_n {S R : Type} (h : nhandler S) (p : nprog R) (s : S)
  : R := snd (fst (nexec h p s)).

(** * Proofs *)

(** ** Symbolic execution *)

Lemma exec_bind {S R T : Type} (h : handler S) (p : prog R) (f : R -> prog T) :
  forall s,
    exec h (bind p f) s =
    let '(tr1, r1, s1) := exec h p s in
    match r1 with
    | Some x => let '(tr2, r2, s2) := exec h (f x) s1 in (tr1 ++ tr2, r2, s2)
    | None => (tr1, None, s1)
    end.
Proof.
  induction p as [R r | R X c k IH | R j _ k IH | R]; intros s; cbn [bind exec].
  - destruct (exec h (f r) s) as [[tr2 r2] s2]; reflexivity.
  - destruct (h X c s) as [x s1]. rewrite IH.
    destruct (exec h (k x) s1) as [[tr1 [r1|]] s2]; [|reflexivity].
    destruct (exec h (f r1) s2) as [[tr2 r2] s3]; reflexivity.
  - rewrite IH.
    destruct (exec h k s) as [[tr1 [r1|]] s2]; [|reflexivity].
    destruct (exec h (f r1) s2) as [[tr2 r2] s3]; reflexivity.
  - reflexivity.
Qed.

(** Run the next call of the program in hypothesis [H] and name its
    answer. *)
Ltac next_call H :=
  cbn [exec bind perform] in H;
  match type of H with
  | context [?h ?X ?c ?s] =>
      match type of h with
      | handler _ => destruct (h X c s) as [? ?]
      end
  end.

Ltac split_answer H :=
  match type of H with
  | context [match ?x with _ => _ end] =>
      is_var x;
      match type of x with
      | option _ => destruct x
      | bool => destruct x
      | prod _ _ => destruct x
      end
  | context [match asIrreparable ?x with _ => _ end] =>
      let E := fresh "Hirr" in destruct (asIrreparable x) eqn:E
  | context [if negb (time.IsZero ?t) then _ else _] =>
      let E := fresh "Hzero" in destruct (time.IsZero t) eqn:E; cbn [negb] in H
  | context [if errs.Has ?c ?e then _ else _] =>
      let E := fresh "Hhas" in destruct (errs.Has c e) eqn:E
  end.

Ltac run H :=
  repeat first
    [ next_call H
    | split_answer H
    | progress cbn [exec bind perform errs.Combine errs.sanitize] in H ];
  cbn [exec bind perform ev fst snd] in H;
  injection H as <- <- <-.

Lemma asIrreparable_Some err e :
  asIrreparable err = Some e -> err = Some (irreparable e).
Proof.
  destruct err as [[]|]; cbn; intros H; try discriminate H.
  injection H as <-; reflexivity.
Qed.

Lemma int32_wrap_id z : is_int32 z -> int32_wrap z = z.
Proof.
  unfold is_int32, int32_wrap; intros Hz.
  rewrite Z.mod_small; lia.
Qed.

(** Find which event of a concrete trace the membership [H] speaks of. *)
Ltac pin H :=
  cbn [In] in H;
  repeat (destruct H as [H | H];
          [ try discriminate H; try (injection H as; subst) | ]);
  try contradiction.

Ltac irreparable_facts :=
  repeat match goal with
    | H : asIrreparable _ = Some _ |- _ =>
        apply asIrreparable_Some in H; try discriminate H;
        try (injection H as; subst)
    | H : asIrreparable (Some (irreparable _)) = None |- _ =>
        discriminate H
    end.

Section Worker.

Context {S : Type} (h : handler S).
Variables (ctx : Context) (seg : InjuredSegment).
Variables (s s' : S) (tr : list event) (r : option (option error)).
Hypothesis Hrun : exec h (worker ctx seg) s = (tr, r, s').

(** C9. When [Repair] returns [shouldDelete = false], whatever the
    error, the worker calls neither the queue's [Delete] nor the
    irreparable store. *)
Theorem worker_keeps_stores_untouched err :
  Repair_returned tr false err ->
  deletes tr = [] /\ irrWrites tr = [].
Proof.
  intros [c [p HR]]. revert HR.
  pose proof Hrun as H. unfold worker, mon_Task_defer in H.
  run H; intros HR; pin HR; split; reflexivity.
Qed.

(** C5. When [Repair] returns [shouldDelete = true] and no error, the
    worker calls the queue's [Delete] for the segment and does not write
    to the irreparable store. *)
Theorem worker_repaired_segment_deleted :
  Repair_returned tr true None ->
  deletes tr = [seg] /\ irrWrites tr = [].
Proof.
  intros [c [p HR]]. revert HR.
  pose proof Hrun as H. unfold worker, mon_Task_defer in H.
  run H; intros HR; pin HR; irreparable_facts; split; reflexivity.
Qed.

(** C3. When [Repair] returns [shouldDelete = true] with an irreparable
    error and the store call does not fail, the worker hands the store
    one record, whose lost pieces are the required pieces minus the
    available ones (Go's subtraction, which is the exact difference
    whenever that fits 32 bits), and calls the queue's [Delete] for the
    segment. *)
Theorem worker_irreparable_recorded_and_deleted ie :
  Repair_returned tr true (Some (irreparable ie)) ->
  (forall c rec e, ~ In (E_IncrementRepairAttempts c rec (Some e)) tr) ->
  (exists rec now,
      irrWrites tr = [rec] /\
      Path rec = GetPath seg /\
      SegmentDetail rec = segmentInfo ie /\
      LostPieces rec = int32_sub (piecesRequired ie) (piecesAvailable ie) /\
      (is_int32 (piecesRequired ie - piecesAvailable ie) ->
       LostPieces rec = piecesRequired ie - piecesAvailable ie) /\
      In (E_time_Now now) tr /\ LastRepairAttempt rec = time.Unix now /\
      RepairAttemptCount rec = 1) /\
  deletes tr = [seg].
Proof.
  intros [c [p HR]] Hok. revert HR Hok.
  pose proof Hrun as H. unfold worker, mon_Task_defer in H.
  run H; intros HR Hok; pin HR; irreparable_facts.
  all: try (exfalso; eapply Hok; cbn [In]; eauto 20; fail).
  all: split; [ do 2 eexists; cbn [irrWrites]; split; [reflexivity |]
              | reflexivity ].
  all: cbn [Path SegmentDetail LostPieces LastRepairAttempt
            RepairAttemptCount In];
       repeat split; eauto 10; intros Hfit; unfold int32_sub;
       apply int32_wrap_id; exact Hfit.
Qed.

(** C4. When [Repair] returns [shouldDelete = true] with an irreparable
    error and the store call fails, the worker does not call the queue's
    [Delete]; the store's error is logged and the worker still returns
    the repair error. *)
Theorem worker_store_failure_leaves_segment ie c rec e :
  Repair_returned tr true (Some (irreparable ie)) ->
  In (E_IncrementRepairAttempts c rec (Some e)) tr ->
  deletes tr = [] /\
  In (E_log_Error
        "failed to add segment to irreparableDB! will leave in repair queue"
        e) tr /\
  r = Some (Some (errs.Wrap Error (irreparable ie))).
Proof.
  intros [c0 [p HR]] Hfail. revert HR Hfail.
  pose proof Hrun as H. unfold worker, mon_Task_defer in H.
  run H; intros HR Hfail; pin HR; irreparable_facts; pin Hfail.
  repeat split; cbn [In]; eauto 20.
Qed.

(** C8. When the worker ends without an error it reads the clock twice
    and observes the repair duration; it observes the time since the
    segment was queued as well exactly when the segment's insertion time
    is not zero. *)
Theorem worker_timing_observations :
  r = Some None ->
  exists workerStartTime repairedTime,
    clock tr = [workerStartTime; repairedTime] /\
    observations tr =
      ("time_for_repair", time.Sub repairedTime workerStartTime) ::
      (if time.IsZero (GetInsertedTime seg) then []
       else [("time_since_checker_queue",
              time.Sub workerStartTime (GetInsertedTime seg))]).
Proof.
  pose proof Hrun as H. unfold worker, mon_Task_defer in H.
  run H; intros Hr; try discriminate Hr.
  all: do 2 eexists; cbn [clock observations];
       rewrite ?Hzero; split; reflexivity.
Qed.

(** C10. When [Repair] returns an error, the worker returns an error
    wrapped in the package's class (the repair error, combined with the
    deletion error if there is one) and makes no timing observation. *)
Theorem worker_error_preserved shouldDelete e :
  Repair_returned tr shouldDelete (Some e) ->
  (exists e',
      r = Some (Some (errs.Wrap Error e')) /\
      (e' = e \/
       exists d,
         e' = combinedError
                [e; errs.New Error "failed to remove segment from queue: %v" d])) /\
  observations tr = [].
Proof.
  intros [c [p HR]]. revert HR.
  pose proof Hrun as H. unfold worker, mon_Task_defer in H.
  run H; intros HR; pin HR; irreparable_facts.
  all: split; [ | reflexivity ].
  all: match goal with
       | |- exists e', Some (Some (errs.Wrap _ ?y)) = _ /\ _ => exists y
       | |- exists e', Some (Some (errorT _ ?y)) = _ /\ _ => exists y
       end; split; [ reflexivity | eauto ].
Qed.

End Worker.

Section Dispatch.

Variable service : Service.
Context {S : Type} (h : handler S).
Variable ctx : Context.

(** C2. In every run of [process] that reaches the queue, the context
    handed to [Select] is the one that [context.WithTimeout] returned for
    the configured total timeout, and it was derived just before the
    [Select] call, after the semaphore unit was acquired. *)
Theorem process_deadline_before_select s tr r s' c seg res :
  exec h (process service ctx) s = (tr, r, s') ->
  In (E_Select c seg res) tr ->
  exists c1 rest,
    tr = [E_mon_Task "process" ctx c1;
          E_Acquire c1 1 None;
          E_WithTimeout c1 (TotalTimeout (config service)) c;
          E_Select c seg res] ++ rest.
Proof.
  intros H HS. revert HS. unfold process, mon_Task_defer in H.
  run H; intros HS; pin HS; do 2 eexists; cbn [app]; reflexivity.
Qed.

(** C7. When [Select] returns an error, [process] releases the one unit
    it acquired, once, cancels the derived context, starts no goroutine
    and returns the error of [Select] as it is. *)
Theorem process_select_failure s tr r s' c seg e :
  exec h (process service ctx) s = (tr, r, s') ->
  In (E_Select c seg (Some e)) tr ->
  (exists c1,
      tr = [E_mon_Task "process" ctx c1;
            E_Acquire c1 1 None;
            E_WithTimeout c1 (TotalTimeout (config service)) c;
            E_Select c seg (Some e);
            E_Release 1;
            E_cancel c;
            E_mon_TaskDone "process" (Some e)]) /\
  releases tr = [1] /\
  cancels tr = [c] /\
  spawned tr = [] /\
  r = Some (Some e).
Proof.
  intros H HS. revert HS. unfold process, mon_Task_defer in H.
  run H; intros HS; pin HS.
  split; [eexists; reflexivity | repeat split; reflexivity].
Qed.

(** C6. The drain loop runs [process] again as long as it returns nil.
    At the first error it stops: on the empty-queue error it returns nil
    and logs nothing, on any other error it logs the error and returns
    it. *)
Theorem processWhileQueueHasItems_stops n s tr s1 tr' e s2 fuel :
  drained service h ctx n s tr s1 ->
  exec h (process service ctx) s1 = (tr', Some (Some e), s2) ->
  (n < fuel)%nat ->
  fst (exec h (processWhileQueueHasItems service fuel ctx) s) =
    (tr ++ tr' ++ drain_log e, Some (drain_result e)).
Proof.
  intros Hd. revert fuel.
  induction Hd as [s | n s tr1 s1 tr2 s3 Hstep Hd IH];
    intros fuel Hfail Hfuel;
    (destruct fuel as [|fuel]; [lia |]);
    cbn [processWhileQueueHasItems]; rewrite exec_bind.
  - rewrite Hfail. unfold drain_log, drain_result.
    destruct (errs.Has ErrEmptyQueue e); cbn [exec bind perform app ev].
    + rewrite app_nil_r. reflexivity.
    + destruct (h unit _ s2) as [[] s3]. reflexivity.
  - rewrite Hstep.
    specialize (IH fuel Hfail ltac:(lia)).
    destruct (exec h (processWhileQueueHasItems service fuel ctx) s1)
      as [[tr3 r3] s4].
    cbn [fst] in IH |- *. injection IH as -> ->.
    rewrite <- app_assoc. reflexivity.
Qed.

End Dispatch.

Lemma sem_step_spec {X : Type} (c : call X) (x : X) w w' :
  sem_step c x w = Some w' ->
  possible c x /\
  semaphore.size w' = semaphore.size w /\
  semaphore.cur w' = semaphore.cur w + units c x.
Proof.
  destruct c; cbn; intros H;
    try (injection H as <-; repeat split; lia).
  - destruct x as [e|], ctx; cbn in H |- *; try discriminate H;
      try (injection H as <-; repeat split; lia).
    all: destruct (semaphore.canAcquire w n); [|discriminate H];
      injection H as <-; repeat split; cbn; lia.
  - destruct (semaphore.canRelease w n); [|discriminate H].
    injection H as <-. repeat split; cbn; lia.
Qed.

Lemma sem_step_bound {X : Type} (c : call X) (x : X) w w' :
  sem_step c x w = Some w' ->
  semaphore.cur w <= semaphore.size w ->
  match op_of c with OpRelease n => 0 <= n | _ => True end ->
  semaphore.cur w' <= semaphore.size w'.
Proof.
  destruct c; cbn; intros H Hle Hn; try (injection H as <-; exact Hle).
  - destruct x as [e|], ctx; cbn in H; try discriminate H;
      try (injection H as <-; exact Hle).
    all: unfold semaphore.canAcquire in H;
      destruct (n <=? semaphore.size w - semaphore.cur w) eqn:E;
      [|discriminate H]; injection H as <-; cbn; lia.
  - destruct (semaphore.canRelease w n); [|discriminate H].
    injection H as <-. cbn. lia.
Qed.

Lemma sem_step_other {X : Type} (c : call X) (x : X) w w' :
  op_of c = OpOther -> sem_step c x w = Some w' -> w' = w.
Proof.
  destruct c; cbn; intros Hop H; try discriminate Hop;
    injection H as <-; reflexivity.
Qed.

Lemma executing_app js1 js2 :
  executing (js1 ++ js2) = (executing js1 + executing js2)%nat.
Proof.
  induction js1 as [|j js1 IH]; cbn [app executing]; [reflexivity |].
  destruct (finished j); rewrite IH; reflexivity.
Qed.

Lemma job_ok_not_finished j : job_ok j -> finished j = false.
Proof. destruct j; cbn; intros H; try contradiction; reflexivity. Qed.

Lemma quiet_bind {R T : Type} (p : prog R) (f : R -> prog T) post :
  quiet p (fun r => quiet (f r) post) -> quiet (bind p f) post.
Proof.
  induction p as [R r | R X c k IH | R j _ k _ | R]; cbn [bind quiet];
    intros H; try contradiction; try exact H.
  destruct (op_of c); try contradiction.
  intros x. apply IH, H.
Qed.

Lemma job_ok_bind {R : Type} (p : prog R) (f : R -> prog unit) :
  quiet p (fun r => job_ok (f r)) -> job_ok (bind p f).
Proof.
  induction p as [R r | R X c k IH | R j _ k _ | R]; cbn [bind quiet job_ok];
    intros H; try contradiction; try exact H.
  destruct (op_of c); try contradiction.
  intros x. apply IH, H.
Qed.

Lemma holds_bind {R T : Type} (p : prog R) (f : R -> prog T) u post :
  holds p u (fun r u' => holds (f r) u' post) -> holds (bind p f) u post.
Proof.
  revert u.
  induction p as [R r | R X c k IH | R j _ k IH | R]; intros u;
    cbn [bind holds]; intros H; try exact H.
  - destruct H as [Hop H]. split; [exact Hop |].
    intros x Hx. apply IH, H, Hx.
  - destruct H as [Hu [Hj H]]. repeat split; try assumption.
    apply IH, H.
Qed.

Lemma holds_weaken {R : Type} (p : prog R) u (post post' : R -> Z -> Prop) :
  (forall r u', post r u' -> post' r u') ->
  holds p u post -> holds p u post'.
Proof.
  intros Hpost. revert u.
  induction p as [R r | R X c k IH | R j _ k IH | R]; intros u;
    cbn [holds]; intros H; auto.
  - destruct H as [Hop H]. split; [exact Hop |].
    intros x Hx. apply (IH x post); auto.
  - destruct H as [Hu [Hj H]]. repeat split; auto.
    apply (IH post); auto.
Qed.

(** The worker leaves the semaphore alone and returns. *)
Lemma worker_quiet ctx seg : quiet (worker ctx seg) (fun _ => True).
Proof.
  unfold worker, mon_Task_defer.
  repeat first
    [ progress cbn [quiet bind perform op_of errs.Combine errs.sanitize]
    | exact I
    | intros []
    | intros ?
    | match goal with
      | |- context [match ?x with _ => _ end] =>
          is_var x;
          match type of x with
          | option _ => destruct x
          | bool => destruct x
          end
      | |- context [match asIrreparable ?x with _ => _ end] =>
          destruct (asIrreparable x)
      | |- context [if negb (time.IsZero ?t) then _ else _] =>
          destruct (time.IsZero t); cbn [negb]
      end ].
Qed.

Lemma quiet_weaken {R : Type} (p : prog R) (post post' : R -> Prop) :
  (forall r, post r -> post' r) -> quiet p post -> quiet p post'.
Proof.
  intros Hpost.
  induction p as [R r | R X c k IH | R j _ k _ | R]; cbn [quiet];
    intros H; auto.
  destruct (op_of c); auto.
  intros x. apply (IH x post); auto.
Qed.

Lemma job_is_job_ok ctx seg : job_ok (job ctx seg).
Proof.
  unfold job. apply job_ok_bind.
  apply (quiet_weaken _ (fun _ => True)); [| apply worker_quiet].
  intros [e|] _; cbn [bind perform job_ok op_of].
  - intros _ _. split; [reflexivity | intros []; reflexivity].
  - intros _. split; [reflexivity | intros []; reflexivity].
Qed.

(** A program that leaves the semaphore alone is not a loop: it returns
    against every environment. *)
Lemma quiet_returns {S R : Type} (h : handler S) (p : prog R) post :
  quiet p post ->
  forall s, exists tr r s', exec h p s = (tr, Some r, s') /\ post r.
Proof.
  induction p as [R r | R X c k IH | R j _ k _ | R]; cbn [quiet exec];
    intros H s; try contradiction.
  - exists [], r, s. split; [reflexivity | exact H].
  - destruct (op_of c); try contradiction.
    destruct (h X c s) as [x s1].
    destruct (IH x post (H x) s1) as (tr & r & s' & Hrun & Hpost).
    rewrite Hrun. exists (ev c x :: tr), r, s'. split; [reflexivity | exact Hpost].
Qed.

(** The worker always returns. *)
Lemma worker_returns {S : Type} (h : handler S) ctx seg s :
  exists tr r s', exec h (worker ctx seg) s = (tr, Some r, s').
Proof.
  destruct (quiet_returns h _ _ (worker_quiet ctx seg) s)
    as (tr & r & s' & Hrun & _).
  exists tr, r, s'. exact Hrun.
Qed.

Lemma units_of_op {X : Type} (c : call X) (x : X) :
  match op_of c with
  | OpAcquire _ n => units c x = n \/ units c x = 0
  | OpRelease n => units c x = - n
  | OpOther => units c x = 0
  end.
Proof. destruct c; cbn; try reflexivity. destruct x; auto. Qed.

Ltac holds_steps :=
  repeat first
    [ progress cbn [holds bind perform op_of units possible]
    | apply job_is_job_ok
    | lia
    | congruence
    | match goal with
      | |- context [match ?x with _ => _ end] =>
          is_var x;
          match type of x with
          | option _ => destruct x
          | prod _ _ => destruct x
          | Context => destruct x
          end
      | |- _ /\ _ => split
      | |- forall _ : unit, _ => intros []
      | |- forall _, _ => intros ?
      end ].

Section Holds.

Variable service : Service.
Hypothesis MaxRepair_nonneg : 0 <= MaxRepair (config service).

(** [process] returns holding what it held: the unit it acquires goes
    back to the semaphore or on to the goroutine it starts. *)
Lemma process_holds ctx u :
  0 <= u -> holds (process service ctx) u (fun _ u' => u' = u).
Proof.
  intros Hu. unfold process, mon_Task_defer. holds_steps.
Qed.

Lemma processWhileQueueHasItems_holds fuel ctx u :
  0 <= u ->
  holds (processWhileQueueHasItems service fuel ctx) u (fun _ u' => u' = u).
Proof.
  intros Hu. induction fuel as [|fuel IH];
    cbn [processWhileQueueHasItems holds]; [exact I |].
  apply holds_bind.
  apply (holds_weaken _ _ (fun _ u' => u' = u)); [| apply process_holds, Hu].
  intros [e|] u' ->; [| exact IH].
  destruct (errs.Has ErrEmptyQueue e); holds_steps.
Qed.

Lemma Loop_Run_holds fuel fuel' ctx u :
  0 <= u ->
  holds (Loop_Run service fuel ctx (processWhileQueueHasItems service fuel'))
        u (fun _ u' => u' = u).
Proof.
  intros Hu. induction fuel as [|fuel IH]; cbn [Loop_Run holds]; [exact I |].
  apply holds_bind.
  apply (holds_weaken _ _ (fun _ u' => u' = u));
    [| apply processWhileQueueHasItems_holds, Hu].
  intros [e|] u' ->; [holds_steps |].
  cbn [holds bind perform op_of units possible].
  split; [exact I |]. intros [res|] _.
  - holds_steps.
  - replace (u + 0) with u by lia. exact IH.
Qed.

(** [Run] starts and ends holding nothing. *)
Lemma Run_holds fuel ctx :
  holds (Run service fuel ctx) 0 (fun _ u' => u' = 0).
Proof.
  unfold Run, mon_Task_defer.
  cbn [holds bind perform op_of units possible].
  split; [exact I |]. intros c _.
  apply holds_bind, holds_bind.
  apply (holds_weaken _ _ (fun _ u' => u' = 0 + 0));
    [| apply Loop_Run_holds; lia].
  intros err u' ->. unfold WaitForPendingRepairs. holds_steps.
Qed.

End Holds.

Lemma Inv_step N st st' : Inv N st -> step st st' -> Inv N st'.
Proof.
  intros (Hsize & Hle & Hjobs & u & Hu & Hmain & Hcur) Hstep.
  destruct Hstep as [w p js w' p' new Hts | w p js1 j js2 w' j' new Hts];
    cbn [sem main jobs] in *.
  - (* the main goroutine *)
    destruct p as [r | X c k | j k |]; cbn [thread_step holds] in Hts, Hmain;
      try contradiction.
    + destruct Hts as (x & Hsem & -> & ->).
      destruct Hmain as [Hop Hk].
      destruct (sem_step_spec _ _ _ _ Hsem) as (Hposs & Hsz & Hc).
      rewrite app_nil_r.
      repeat split; cbn [sem main jobs]; try congruence.
      * rewrite <- Hsize, <- Hsz.
        apply (sem_step_bound _ _ _ _ Hsem); [lia |].
        destruct (op_of c); try exact I; lia.
      * exists (u + units c x). repeat split.
        -- pose proof (units_of_op c x) as Hun.
           destruct (op_of c); lia.
        -- apply Hk, Hposs.
        -- lia.
    + destruct Hts as (-> & -> & ->).
      destruct Hmain as (Hone & Hj & Hk).
      repeat split; cbn [sem main jobs]; try assumption.
      * apply Forall_app. split; [assumption |].
        constructor; [right; exact Hj | constructor].
      * exists (u - 1). repeat split; [lia | exact Hk |].
        rewrite executing_app. cbn [executing].
        rewrite (job_ok_not_finished _ Hj). lia.
  - (* a job *)
    apply Forall_app in Hjobs. destruct Hjobs as [Hjs1 Hjs2].
    inversion Hjs2 as [| j0 js0 Hj Hjs2' ]; subst j0 js0.
    rewrite executing_app in Hcur. cbn [executing] in Hcur.
    destruct Hj as [Hfin | Hj];
      [ destruct j; cbn in Hfin, Hts; try discriminate Hfin; contradiction |].
    rewrite (job_ok_not_finished _ Hj) in Hcur.
    destruct j as [r | X c k | j k |]; cbn [thread_step job_ok] in Hts, Hj;
      try contradiction.
    destruct Hts as (x & Hsem & -> & ->).
    rewrite app_nil_r.
    destruct (sem_step_spec _ _ _ _ Hsem) as (_ & Hsz & Hc).
    pose proof (units_of_op c x) as Hun.
    pose proof (sem_step_other c x w w') as Hother.
    destruct (op_of c) as [c0 n | n |]; try contradiction.
    + (* the job gives its unit back and returns *)
      destruct Hj as [-> Hret]. rewrite (Hret x).
      repeat split; cbn [sem main jobs]; try congruence; try lia.
      * apply Forall_app. split; [assumption |].
        constructor; [left; reflexivity | assumption].
      * exists u. repeat split; try assumption.
        rewrite executing_app. cbn [executing finished]. lia.
    + (* any other call *)
      specialize (Hother eq_refl Hsem). subst w'.
      repeat split; cbn [sem main jobs]; try assumption.
      * apply Forall_app. split; [assumption |].
        constructor; [right; apply Hj | assumption].
      * exists u. repeat split; try assumption.
        rewrite executing_app. cbn [executing].
        rewrite (job_ok_not_finished _ (Hj x)). lia.
Qed.

Lemma Inv_start cfg fuel ctx :
  0 <= MaxRepair cfg -> Inv (MaxRepair cfg) (start cfg fuel ctx).
Proof.
  intros HN. unfold start, Inv.
  cbn [sem main jobs NewService JobLimiter semaphore.NewWeighted
       semaphore.size semaphore.cur executing].
  split; [reflexivity |]. split; [exact HN |]. split; [constructor |].
  exists 0. split; [lia |]. split; [| reflexivity].
  apply Run_holds. exact HN.
Qed.

Lemma Inv_reachable N st0 st : Inv N st0 -> reachable st0 st -> Inv N st.
Proof.
  intros H0 Hr. induction Hr as [| st st' _ IH Hstep]; [exact H0 |].
  eapply Inv_step; eassumption.
Qed.

(** C1. Whatever the configured maximum [MaxRepair] (not negative), in
    every state the service can reach, with its goroutines interleaved in
    any way, at most [MaxRepair] repair jobs are in flight. *)
Theorem at_most_MaxRepair_jobs cfg fuel ctx st :
  0 <= MaxRepair cfg ->
  reachable (start cfg fuel ctx) st ->
  Z.of_nat (executing (jobs st)) <= MaxRepair cfg.
Proof.
  intros HN Hr.
  destruct (Inv_reachable _ _ _ (Inv_start cfg fuel ctx HN) Hr)
    as (_ & Hle & _ & u & Hu & _ & Hcur).
  lia.
Qed.

(** ** The library models on small inputs *)

Example int32_sub_ten_three : int32_sub 10 3 = 7.
Proof. reflexivity. Qed.

Example int32_sub_wraps : int32_sub (2 ^ 31 - 1) (- 1) = - 2 ^ 31.
Proof. reflexivity. Qed.

(** The time since a zero insertion time would not fit a [Duration]. *)
Example Sub_zero_time_saturates :
  time.Sub clock_start 0 = time.maxDuration.
Proof. reflexivity. Qed.

Example Unix_clock_start : time.Unix clock_start = 1664403200.
Proof. reflexivity. Qed.

Example Has_through_wrapper :
  errs.Has ErrEmptyQueue
    (errorT Error (errorT ErrEmptyQueue (errorString "empty queue"))) = true.
Proof. reflexivity. Qed.

Example Has_other_error :
  errs.Has ErrEmptyQueue (errorString "connection refused") = false.
Proof. reflexivity. Qed.

Example Wrap_same_class :
  errs.Wrap Error (errs.New Error "failed: %v" (errorString "x"))
  = errs.New Error "failed: %v" (errorString "x").
Proof. reflexivity. Qed.

Example Combine_nil_and_error :
  errs.Combine [None; Some (errorString "x")] = Some (errorString "x").
Proof. reflexivity. Qed.

Example Combine_two_errors :
  errs.Combine [Some (errorString "x"); Some (errorString "y")]
  = Some (combinedError [errorString "x"; errorString "y"]).
Proof. reflexivity. Qed.

(** ** The theorems at work in the scripted environment *)

(** The specification's example: 10 pieces required, 3 available, the
    store accepts the record. *)
Example worker_trace_irreparable_stored :
  trace_of (scripted irreparable_stored) (worker Background legacy_segment)
           empty_world =
  [E_mon_Task "worker" Background (Derived 0);
   E_time_Now 63800000001000000000;
   E_log_Debug "Limiter running repair on segment";
   E_Repair (Derived 0) "bucket/legacy" true (Some (irreparable ten_three));
   E_log_Error
     "segment could not be repaired! adding to irreparableDB for more attention"
     (irreparable ten_three);
   E_time_Now 63800000005000000000;
   E_IncrementRepairAttempts (Derived 0)
     {| Path := "bucket/legacy";
        SegmentDetail := "pointer";
        LostPieces := 7;
        LastRepairAttempt := 1664403205;
        RepairAttemptCount := 1 |} None;
   E_Delete (Derived 0) legacy_segment None;
   E_mon_TaskDone "worker"
     (Some (errorT "repairer error" (irreparable ten_three)))].
Proof. vm_compute. reflexivity. Qed.

Lemma worker_keeps_stores_untouched_witness :
  deletes (trace_of (scripted repair_failed)
             (worker Background queued_segment) empty_world) = [] /\
  irrWrites (trace_of (scripted repair_failed)
               (worker Background queued_segment) empty_world) = [].
Proof.
  eapply (worker_keeps_stores_untouched (scripted repair_failed) Background
            queued_segment empty_world).
  - vm_compute. reflexivity.
  - exists (Derived 0), "bucket/queued". vm_compute. tauto.
Defined.

Lemma worker_repaired_segment_deleted_witness :
  deletes (trace_of (scripted repaired)
             (worker Background queued_segment) empty_world)
    = [queued_segment] /\
  irrWrites (trace_of (scripted repaired)
               (worker Background queued_segment) empty_world) = [].
Proof.
  eapply (worker_repaired_segment_deleted (scripted repaired) Background
            queued_segment empty_world).
  - vm_compute. reflexivity.
  - exists (Derived 0), "bucket/queued". vm_compute. tauto.
Defined.

Lemma worker_irreparable_recorded_and_deleted_witness :
  exists rec,
    irrWrites (trace_of (scripted irreparable_stored)
                 (worker Background legacy_segment) empty_world) = [rec] /\
    LostPieces rec = 7 /\
    deletes (trace_of (scripted irreparable_stored)
               (worker Background legacy_segment) empty_world)
      = [legacy_segment].
Proof.
  destruct (worker_irreparable_recorded_and_deleted
              (scripted irreparable_stored) Background legacy_segment
              empty_world
              (final_of (scripted irreparable_stored)
                 (worker Background legacy_segment) empty_world)
              (trace_of (scripted irreparable_stored)
                 (worker Background legacy_segment) empty_world)
              (result_of (scripted irreparable_stored)
                 (worker Background legacy_segment) empty_world)
              eq_refl ten_three)
    as [(rec & now & Hw & _ & _ & _ & Hlost & _) Hdel].
  - exists (Derived 0), "bucket/legacy". vm_compute. tauto.
  - intros c rec e. vm_compute. intros H.
    repeat (destruct H as [H | H]; [discriminate H |]). exact H.
  - exists rec. split; [exact Hw |]. split; [| exact Hdel].
    rewrite Hlost; [reflexivity |]. unfold is_int32. cbn. lia.
Defined.

Lemma worker_store_failure_leaves_segment_witness :
  deletes (trace_of (scripted irreparable_store_down)
             (worker Background legacy_segment) empty_world) = [] /\
  In (E_log_Error
        "failed to add segment to irreparableDB! will leave in repair queue"
        (errorString "store unavailable"))
     (trace_of (scripted irreparable_store_down)
        (worker Background legacy_segment) empty_world) /\
  result_of (scripted irreparable_store_down)
    (worker Background legacy_segment) empty_world
    = Some (Some (errs.Wrap Error (irreparable ten_three))).
Proof.
  eapply (worker_store_failure_leaves_segment
            (scripted irreparable_store_down) Background legacy_segment
            empty_world
            (final_of (scripted irreparable_store_down)
               (worker Background legacy_segment) empty_world)
            _ _ eq_refl ten_three (Derived 0)
            {| Path := "bucket/legacy";
               SegmentDetail := "pointer";
               LostPieces := 7;
               LastRepairAttempt := 1664403205;
               RepairAttemptCount := 1 |}).
  - exists (Derived 0), "bucket/legacy". vm_compute. tauto.
  - vm_compute. tauto.
Defined.

Lemma worker_timing_observations_witness :
  observations (trace_of (scripted repaired)
                  (worker Background legacy_segment) empty_world)
    = [("time_for_repair", 5000000000)] /\
  observations (trace_of (scripted repaired)
                  (worker Background queued_segment) empty_world)
    = [("time_for_repair", 5000000000);
       ("time_since_checker_queue", 61000000000)].
Proof.
  split.
  - destruct (worker_timing_observations (scripted repaired) Background
                legacy_segment empty_world
                (final_of (scripted repaired)
                   (worker Background legacy_segment) empty_world)
                (trace_of (scripted repaired)
                   (worker Background legacy_segment) empty_world)
                (result_of (scripted repaired)
                   (worker Background legacy_segment) empty_world)
                eq_refl eq_refl)
      as (t0 & t1 & Hclock & Hobs).
    rewrite Hobs. vm_compute in Hclock. injection Hclock as <- <-.
    reflexivity.
  - destruct (worker_timing_observations (scripted repaired) Background
                queued_segment empty_world
                (final_of (scripted repaired)
                   (worker Background queued_segment) empty_world)
                (trace_of (scripted repaired)
                   (worker Background queued_segment) empty_world)
                (result_of (scripted repaired)
                   (worker Background queued_segment) empty_world)
                eq_refl eq_refl)
      as (t0 & t1 & Hclock & Hobs).
    rewrite Hobs. vm_compute in Hclock. injection Hclock as <- <-.
    reflexivity.
Defined.

Lemma worker_error_preserved_witness :
  result_of (scripted irreparable_stored)
    (worker Background legacy_segment) empty_world
    = Some (Some (errs.Wrap Error (irreparable ten_three))) /\
  irrWrites (trace_of (scripted irreparable_stored)
               (worker Background legacy_segment) empty_world) <> [] /\
  deletes (trace_of (scripted irreparable_stored)
             (worker Background legacy_segment) empty_world)
    = [legacy_segment] /\
  observations (trace_of (scripted irreparable_stored)
                  (worker Background legacy_segment) empty_world) = [].
Proof.
  destruct (worker_error_preserved (scripted irreparable_stored) Background
              legacy_segment empty_world
              (final_of (scripted irreparable_stored)
                 (worker Background legacy_segment) empty_world)
              (trace_of (scripted irreparable_stored)
                 (worker Background legacy_segment) empty_world)
              (result_of (scripted irreparable_stored)
                 (worker Background legacy_segment) empty_world)
              eq_refl true (irreparable ten_three))
    as [_ Hobs].
  - exists (Derived 0), "bucket/legacy". vm_compute. tauto.
  - split; [vm_compute; reflexivity |].
    split; [vm_compute; discriminate |].
    split; [vm_compute; reflexivity | exact Hobs].
Defined.

Lemma process_deadline_before_select_witness :
  exists c1 rest,
    trace_of (scripted repaired) (process (NewService two_workers) Background)
             two_pending =
    [E_mon_Task "process" Background c1;
     E_Acquire c1 1 None;
     E_WithTimeout c1 2700000000000 (Derived 2);
     E_Select (Derived 2)
       (Some {| Path_ := "bucket/a"; InsertedTime_ := 0 |}) None] ++ rest.
Proof.
  eapply (process_deadline_before_select (NewService two_workers)
            (scripted repaired) Background two_pending).
  - lazy -[job]. reflexivity.
  - lazy -[job]. tauto.
Defined.

Lemma process_select_failure_witness :
  releases (trace_of (scripted repaired)
              (process (NewService two_workers) Background) empty_world)
    = [1] /\
  cancels (trace_of (scripted repaired)
             (process (NewService two_workers) Background) empty_world)
    = [Derived 2] /\
  spawned (trace_of (scripted repaired)
             (process (NewService two_workers) Background) empty_world)
    = [] /\
  result_of (scripted repaired)
    (process (NewService two_workers) Background) empty_world
    = Some (Some (errorT ErrEmptyQueue (errorString "empty queue"))).
Proof.
  eapply (process_select_failure (NewService two_workers)
            (scripted repaired) Background empty_world
            (trace_of (scripted repaired)
               (process (NewService two_workers) Background) empty_world)
            (result_of (scripted repaired)
               (process (NewService two_workers) Background) empty_world)
            (final_of (scripted repaired)
               (process (NewService two_workers) Background) empty_world)
            (Derived 2) None).
  - lazy -[job]. reflexivity.
  - lazy -[job]. tauto.
Defined.

(** Two segments are pending: the drain loop dispatches both and stops
    cleanly on the empty queue.  When the service is shutting down the
    failed [Acquire] is logged and returned. *)
Lemma processWhileQueueHasItems_stops_witness :
  (result_of (scripted repaired)
     (processWhileQueueHasItems (NewService two_workers) 3 Background)
     two_pending = Some None /\
   List.length (spawned (trace_of (scripted repaired)
     (processWhileQueueHasItems (NewService two_workers) 3 Background)
     two_pending)) = 2%nat) /\
  (result_of (scripted shutting_down)
     (processWhileQueueHasItems (NewService two_workers) 3 Background)
     two_pending = Some (Some (errorString "context canceled")) /\
   In (E_log_Error "process"
         (errs.Wrap Error (errorString "context canceled")))
      (trace_of (scripted shutting_down)
         (processWhileQueueHasItems (NewService two_workers) 3 Background)
         two_pending)).
Proof.
  split.
  - assert (H : exists tr tr' e,
        fst (exec (scripted repaired)
               (processWhileQueueHasItems (NewService two_workers) 3
                  Background) two_pending)
        = (tr ++ tr' ++ drain_log e, Some (drain_result e)) /\
        drain_result e = None /\
        List.length (spawned (tr ++ tr' ++ drain_log e)) = 2%nat).
    { do 3 eexists. split; [| split].
      - eapply (processWhileQueueHasItems_stops (NewService two_workers)
                  (scripted repaired) Background 2).
        + eapply drained_S; [lazy -[job]; reflexivity |].
          eapply drained_S; [lazy -[job]; reflexivity |].
          apply drained_O.
        + lazy -[job]. reflexivity.
        + lia.
      - reflexivity.
      - reflexivity. }
    destruct H as (tr & tr' & e & Hrun & Hres & Hlen).
    unfold result_of, trace_of. rewrite Hrun. cbn [fst snd].
    rewrite Hres. split; [reflexivity | exact Hlen].
  - assert (H : exists tr' e,
        fst (exec (scripted shutting_down)
               (processWhileQueueHasItems (NewService two_workers) 3
                  Background) two_pending)
        = ([] ++ tr' ++ drain_log e, Some (drain_result e)) /\
        drain_result e = Some (errorString "context canceled") /\
        In (E_log_Error "process"
              (errs.Wrap Error (errorString "context canceled")))
           (drain_log e)).
    { do 2 eexists. split; [| split].
      - eapply (processWhileQueueHasItems_stops (NewService two_workers)
                  (scripted shutting_down) Background 0).
        + apply drained_O.
        + lazy -[job]. reflexivity.
        + lia.
      - reflexivity.
      - left. reflexivity. }
    destruct H as (tr' & e & Hrun & Hres & Hlog).
    unfold result_of, trace_of. rewrite Hrun. cbn [fst snd app].
    rewrite Hres. split; [reflexivity |].
    apply in_or_app. right. exact Hlog.
Defined.

(** ** The semaphore at work *)

Lemma reach_head st0 st1 st :
  step st0 st1 -> reachable st1 st -> reachable st0 st.
Proof.
  intros Hstep Hr. induction Hr as [| st st' _ IH Hstep'].
  - eapply reach_step; [apply reach_refl | exact Hstep].
  - eapply reach_step; [exact IH | exact Hstep'].
Qed.

Lemma simulate_main_reachable {S : Type} (h : handler S) n :
  forall st s, reachable st (fst (simulate_main h n st s)).
Proof.
  induction n as [|n IH]; intros [w p js] s; cbn [simulate_main main sem jobs].
  - apply reach_refl.
  - destruct p as [r | X c k | j k |]; try apply reach_refl.
    + destruct (h X c s) as [x s1].
      destruct (sem_step c x w) as [w'|] eqn:Hsem; [| apply reach_refl].
      eapply reach_head; [| apply IH].
      replace js with (js ++ []) at 2 by apply app_nil_r.
      apply step_main. cbn [thread_step]. exists x. auto.
    + eapply reach_head; [| apply IH].
      apply step_main. cbn [thread_step]. auto.
Qed.

(** With room for two jobs and three segments pending, the main goroutine
    starts two jobs and then waits in [Acquire]: the third segment is not
    fetched while both jobs are in flight. *)
Example third_job_waits :
  let st := fst (simulate_main (scripted repaired) 100
                   (start two_workers 5 Background) three_pending) in
  executing (jobs st) = 2%nat /\
  semaphore.cur (sem st) = 2 /\
  semaphore.canAcquire (sem st) 1 = false.
Proof. vm_compute. repeat split. Qed.

Lemma at_most_MaxRepair_jobs_witness :
  executing (jobs (fst (simulate_main (scripted repaired) 100
                          (start two_workers 5 Background) three_pending)))
    = 2%nat /\
  Z.of_nat
    (executing (jobs (fst (simulate_main (scripted repaired) 100
                             (start two_workers 5 Background) three_pending))))
    <= MaxRepair two_workers.
Proof.
  split; [vm_compute; reflexivity |].
  apply (at_most_MaxRepair_jobs two_workers 5 Background).
  - cbn. lia.
  - apply simulate_main_reachable.
Defined.

(** * Further properties of the service *)

(** ** The worker *)

(** Name the event a membership in a concrete trace speaks of, when the
    event is a variable. *)
Ltac pin_var H :=
  cbn [In] in H;
  repeat (destruct H as [H | H]; [try subst |]);
  try contradiction.

Section WorkerMore.

Context {S : Type} (h : handler S).
Variables (ctx : Context) (seg : InjuredSegment).
Variables (s s' : S) (tr : list event) (r : option (option error)).
Hypothesis Hrun : exec h (worker ctx seg) s = (tr, r, s').

(** X1. A repair that succeeded but whose queue entry could not be removed
    is a failed job: the worker returns the deletion failure, in the
    package's error class, and makes no timing observation. *)
Theorem worker_delete_failure_is_job_failure c seg' d :
  Repair_returned tr true None ->
  In (E_Delete c seg' (Some d)) tr ->
  r = Some (Some (errs.New Error "failed to remove segment from queue: %v" d)) /\
  observations tr = [].
Proof.
  intros [c0 [p HR]] HD. revert HR HD.
  pose proof Hrun as H. unfold worker, mon_Task_defer in H.
  run H; intros HR HD; pin HR; irreparable_facts; pin HD.
  all: split; reflexivity.
Qed.

(** X2. An error of [Repair] that is not an irreparable error does not keep
    the segment in the queue when [Repair] asked for its removal: the
    error is logged as unexpected, [Delete] is called for the segment and
    the irreparable store is left alone. *)
Theorem worker_unexpected_error_still_deletes e :
  Repair_returned tr true (Some e) ->
  asIrreparable (Some e) = None ->
  deletes tr = [seg] /\
  irrWrites tr = [] /\
  In (E_log_Error "unexpected error repairing segment!" e) tr.
Proof.
  intros [c0 [p HR]] Hkind. revert HR.
  pose proof Hrun as H. unfold worker, mon_Task_defer in H.
  run H; intros HR; pin HR; irreparable_facts;
    try (rewrite Hkind in *; discriminate).
  all: try (cbn in Hkind; discriminate Hkind).
  all: repeat split; cbn [In]; eauto 20.
Qed.

(** X3. The worker touches the two stores at most once each and only for
    its own segment: [Delete] is called for this segment or not at all,
    and only when [Repair] asked for it; the irreparable store gets at most
    one record, and only when [Repair] asked for removal with an
    irreparable error. *)
Theorem worker_store_calls_bounded :
  (deletes tr = [] \/
   deletes tr = [seg] /\ exists err, Repair_returned tr true err) /\
  (irrWrites tr = [] \/
   exists rec ie,
     irrWrites tr = [rec] /\
     Repair_returned tr true (Some (irreparable ie))).
Proof.
  pose proof Hrun as H. unfold worker, mon_Task_defer in H.
  run H; irreparable_facts; unfold Repair_returned; cbn [deletes irrWrites].
  all: split;
    [ first [ left; reflexivity
            | right; split; [reflexivity |];
              do 3 eexists; cbn [In]; eauto 20 ]
    | first [ left; reflexivity
            | right; do 2 eexists; split; [reflexivity |];
              do 2 eexists; cbn [In]; eauto 20 ] ].
Qed.

(** X4. The worker returns nil exactly when [Repair] returned no error and
    no [Delete] call failed, and it makes timing observations exactly in
    that case. *)
Theorem worker_nil_iff_clean :
  (r = Some None <->
   (exists shouldDelete, Repair_returned tr shouldDelete None) /\
   (forall c seg' d, ~ In (E_Delete c seg' (Some d)) tr)) /\
  (observations tr <> [] <-> r = Some None).
Proof.
  pose proof Hrun as H. unfold worker, mon_Task_defer in H.
  run H; irreparable_facts; unfold Repair_returned; cbn [observations].
  all: split; split.
  all: try (intros Hr; discriminate Hr).
  all: try (intros Hobs; exfalso; apply Hobs; reflexivity).
  all: try (intros _; reflexivity).
  all: try (intros _; discriminate).
  all: try (intros [[sd [cR [pR HR]]] Hnd]; pin HR;
            exfalso; eapply Hnd; cbn [In]; eauto 20; fail).
  all: intros _; split;
    [ do 3 eexists; cbn [In]; eauto 20
    | intros cD seg' d HD; pin HD ].
Qed.

(** X5. The context of the job, as [mon.Task] returns it, is the one every
    call to the repairer, the store and the queue is made with (so the
    job's deadline bounds them all); [Repair] is called exactly once, with
    the path of the segment. *)
Theorem worker_passes_its_context :
  exists c,
    In (E_mon_Task "worker" ctx c) tr /\
    repairs tr = [(c, GetPath seg)] /\
    forall e c', In e tr -> downstream_ctx e = Some c' -> c' = c.
Proof.
  pose proof Hrun as H. unfold worker, mon_Task_defer in H.
  run H; eexists; (split; [left; reflexivity |]);
    (split; [reflexivity |]); intros ev0 c' HIn Hd; pin_var HIn;
    cbn [downstream_ctx] in Hd; try discriminate Hd;
    injection Hd as <-; reflexivity.
Qed.

End WorkerMore.

(** ** The dispatch step, the job and the drain loop *)

Lemma spawned_app tr1 tr2 : spawned (tr1 ++ tr2) = spawned tr1 ++ spawned tr2.
Proof.
  induction tr1 as [|[] tr1 IH]; cbn [app spawned]; congruence.
Qed.

Lemma releases_app tr1 tr2 :
  releases (tr1 ++ tr2) = releases tr1 ++ releases tr2.
Proof.
  induction tr1 as [|[] tr1 IH]; cbn [app releases]; congruence.
Qed.

Lemma cancels_app tr1 tr2 : cancels (tr1 ++ tr2) = cancels tr1 ++ cancels tr2.
Proof.
  induction tr1 as [|[] tr1 IH]; cbn [app cancels]; congruence.
Qed.

Lemma acquires_app tr1 tr2 :
  acquires (tr1 ++ tr2) = acquires tr1 ++ acquires tr2.
Proof.
  induction tr1 as [|[] tr1 IH]; cbn [app acquires]; congruence.
Qed.

Section DispatchMore.

Variable service : Service.
Context {S : Type} (h : handler S).
Variable ctx : Context.

(** X6. When the semaphore unit cannot be acquired, [process] returns the
    error of [Acquire] and has done nothing else: no context was derived,
    the queue was not asked, nothing was released and no goroutine was
    started. *)
Theorem process_acquire_failure s tr r s' c n e :
  exec h (process service ctx) s = (tr, r, s') ->
  In (E_Acquire c n (Some e)) tr ->
  tr = [E_mon_Task "process" ctx c;
        E_Acquire c 1 (Some e);
        E_mon_TaskDone "process" (Some e)] /\
  r = Some (Some e).
Proof.
  intros H HA. revert HA. unfold process, mon_Task_defer in H.
  run H; intros HA; pin HA. split; reflexivity.
Qed.

(** X7. When [Select] returns a segment, [process] starts one goroutine,
    the job for that segment under the derived context, and returns nil
    at once; it neither releases the unit nor cancels the context itself:
    both are handed to the job. *)
Theorem process_hands_over s tr r s' c seg :
  exec h (process service ctx) s = (tr, r, s') ->
  In (E_Select c seg None) tr ->
  (exists c1,
      tr = [E_mon_Task "process" ctx c1;
            E_Acquire c1 1 None;
            E_WithTimeout c1 (TotalTimeout (config service)) c;
            E_Select c seg None;
            E_log_Debug "Retrieved segment from repair queue";
            E_go (job c seg);
            E_mon_TaskDone "process" None]) /\
  spawned tr = [job c seg] /\
  releases tr = [] /\
  cancels tr = [] /\
  r = Some None.
Proof.
  intros H HS. revert HS. unfold process, mon_Task_defer in H.
  run H; intros HS; pin HS.
  split; [eexists; reflexivity | repeat split; reflexivity].
Qed.

(** A step that returns nil took one unit and started one goroutine. *)
Lemma process_nil_step s tr s' :
  exec h (process service ctx) s = (tr, Some None, s') ->
  List.length (spawned tr) = 1%nat /\
  acquires tr = [1] /\ releases tr = [] /\ cancels tr = [].
Proof.
  intros H. remember (Some (@None error)) as r0 eqn:Hr0. revert Hr0.
  unfold process, mon_Task_defer in H.
  run H; intros Hr0; try discriminate Hr0.
  repeat split; reflexivity.
Qed.

(** X8. [n] dispatch steps that return nil take [n] units from the
    semaphore and start [n] goroutines; the steps give no unit back and
    cancel no context themselves. *)
Theorem drained_starts_one_job_per_step n s tr s1 :
  drained service h ctx n s tr s1 ->
  List.length (spawned tr) = n /\
  acquires tr = repeat 1 n /\
  releases tr = [] /\
  cancels tr = [].
Proof.
  induction 1 as [s | n s tr1 s1 tr2 s2 Hstep _ IH].
  - repeat split; reflexivity.
  - destruct (process_nil_step _ _ _ Hstep) as (Hs & Ha & Hr & Hc).
    destruct IH as (IHs & IHa & IHr & IHc).
    rewrite spawned_app, acquires_app, releases_app, cancels_app.
    rewrite length_app, Hs, IHs, Ha, IHa, Hr, IHr, Hc, IHc.
    repeat split; reflexivity.
Qed.

(** X9. The drain loop returns only because a step failed: whenever it
    returns, some number of steps returned nil, the next one returned an
    error, and the result and the log are those for that error. *)
Theorem processWhileQueueHasItems_returns_on_error fuel :
  forall s tr r s',
    exec h (processWhileQueueHasItems service fuel ctx) s = (tr, Some r, s') ->
    exists n tr1 s1 tr2 e s2,
      drained service h ctx n s tr1 s1 /\
      exec h (process service ctx) s1 = (tr2, Some (Some e), s2) /\
      (n < fuel)%nat /\
      r = drain_result e /\
      tr = tr1 ++ tr2 ++ drain_log e.
Proof.
  induction fuel as [|fuel IH]; intros s tr r s' H;
    cbn [processWhileQueueHasItems exec] in H; [discriminate H |].
  rewrite exec_bind in H.
  destruct (exec h (process service ctx) s) as [[tr1 [[e|]|]] s1] eqn:Hstep.
  - (* the step failed *)
    exists O, [], s, tr1, e, s1.
    split; [apply drained_O |]. split; [exact Hstep |]. split; [lia |].
    unfold drain_result, drain_log.
    destruct (errs.Has ErrEmptyQueue e); cbn [exec bind perform ev] in H.
    + injection H as <- <- <-. rewrite app_nil_r. split; reflexivity.
    + destruct (h unit _ s1) as [[] s2].
      injection H as <- <- <-. split; reflexivity.
  - (* the step returned nil: the loop goes on *)
    destruct (exec h (processWhileQueueHasItems service fuel ctx) s1)
      as [[tr2 r2] s2] eqn:Hrest.
    injection H as <- -> <-.
    destruct (IH _ _ _ _ Hrest) as (n & tra & sa & trb & e & sb
                                    & Hd & Hfail & Hn & Hr & Htr).
    exists (Datatypes.S n), (tr1 ++ tra), sa, trb, e, sb.
    split; [eapply drained_S; eassumption |].
    split; [exact Hfail |]. split; [lia |]. split; [exact Hr |].
    rewrite Htr, app_assoc. reflexivity.
  - discriminate H.
Qed.

(** X10. As long as the steps return nil the drain loop does not return:
    after [fuel] such steps the unrolling is still running. *)
Theorem processWhileQueueHasItems_goes_on fuel :
  forall s tr s1,
    drained service h ctx fuel s tr s1 ->
    fst (exec h (processWhileQueueHasItems service fuel ctx) s) = (tr, None).
Proof.
  induction fuel as [|fuel IH]; intros s tr s1 Hd;
    inversion Hd as [s0 | n s0 tr1 sa tr2 sb Hstep Hrest]; subst.
  - reflexivity.
  - cbn [processWhileQueueHasItems]. rewrite exec_bind, Hstep.
    specialize (IH _ _ _ Hrest).
    destruct (exec h (processWhileQueueHasItems service fuel ctx) sa)
      as [[tr3 r3] s3].
    cbn [fst] in IH |- *. injection IH as -> ->. reflexivity.
Qed.

End DispatchMore.

Section Job.

Context {S : Type} (h : handler S).
Variables (ctx : Context) (seg : InjuredSegment).

(** X11. Whatever happens to the repair, the job's goroutine ends by
    cancelling its context and then releasing its semaphore unit, each
    exactly once; a worker error is logged and goes no further. *)
Theorem job_gives_back s tr r s' :
  exec h (job ctx seg) s = (tr, r, s') ->
  r = Some tt /\
  releases tr = [1] /\
  cancels tr = [ctx] /\
  acquires tr = [] /\
  spawned tr = [] /\
  (exists tr0, tr = tr0 ++ [E_cancel ctx; E_Release 1]) /\
  (forall e,
      In (E_mon_TaskDone "worker" (Some e)) tr <->
      In (E_log_Error "repair worker failed:" e) tr).
Proof.
  intros H. unfold job, worker, mon_Task_defer in H.
  run H.
  all: repeat match goal with u : unit |- _ => destruct u end.
  all: split; [reflexivity |]; split; [reflexivity |];
       split; [reflexivity |]; split; [reflexivity |];
       split; [reflexivity |]; split.
  all: try (match goal with
            | |- exists tr0, ?l = _ =>
                exists (removelast (removelast l)); reflexivity
            end).
  all: intros e9; split; intros HIn; pin HIn; cbn [In]; auto 20.
Qed.

End Job.

(** ** The semaphore and the shutdown barrier *)




Section Shutdown.

Variable service : Service.




End Shutdown.

Lemma executing_live j js :
  In j js -> finished j = false -> (1 <= executing js)%nat.
Proof.
  induction js as [|j0 js IH]; cbn [In executing]; [contradiction |].
  intros [-> | Hin] Hlive.
  - rewrite Hlive. lia.
  - specialize (IH Hin Hlive). destruct (finished j0); lia.
Qed.





(** X13. The semaphore is never misused: in every state the service can
    reach, the units taken are between 0 and [MaxRepair], and a goroutine
    that is about to release units (the main one or a job) releases no
    more than are taken, so [Release] does not panic. *)
Theorem semaphore_never_over_released cfg fuel ctx st :
  0 <= MaxRepair cfg ->
  reachable (start cfg fuel ctx) st ->
  0 <= semaphore.cur (sem st) <= MaxRepair cfg /\
  semaphore.size (sem st) = MaxRepair cfg /\
  (forall n, next_release (main st) = Some n ->
             semaphore.canRelease (sem st) n = true) /\
  (forall j n, In j (jobs st) -> next_release j = Some n ->
               semaphore.canRelease (sem st) n = true).
Proof.
  intros HN Hr.
  destruct (Inv_reachable _ _ _ (Inv_start cfg fuel ctx HN) Hr)
    as (Hsize & Hle & Hjobs & u & Hu & Hmain & Hcur).
  split; [lia |]. split; [exact Hsize |].
  unfold semaphore.canRelease. split.
  - intros n Hn. apply Z.leb_le.
    destruct (main st) as [r | X c k | j k |]; try discriminate Hn.
    cbn [next_release holds] in Hn, Hmain. destruct Hmain as [Hop _].
    destruct (op_of c); try discriminate Hn.
    injection Hn as ->. lia.
  - intros j n Hin Hn. apply Z.leb_le.
    pose proof (proj1 (Forall_forall _ _) Hjobs j Hin) as [Hfin | Hok].
    + destruct j; try discriminate Hfin. discriminate Hn.
    + pose proof (executing_live _ _ Hin (job_ok_not_finished _ Hok)) as Hlive.
      destruct j as [r | X c k | j0 k |]; try discriminate Hn.
      cbn [next_release job_ok] in Hn, Hok.
      destruct (op_of c); try discriminate Hn.
      injection Hn as ->. destruct Hok as [-> _]. lia.
Qed.

(** ** [Run], run to its end *)

(** X14. [Run] returns what the poll cycle returned, and on its way out it
    always passes the barrier of [WaitForPendingRepairs]: it asks for all
    [MaxRepair] units on the background context, releases them whatever the
    answer, and only then closes its task. *)
Theorem Run_ends_with_barrier service {S : Type} (h : handler S) fuel ctx
    s tr r s' :
  exec h (Run service fuel ctx) s = (tr, Some r, s') ->
  exists c tr0 s0 s1 a,
    exec h (Loop_Run service fuel c (processWhileQueueHasItems service fuel)) s0
      = (tr0, Some r, s1) /\
    tr = E_mon_Task "Run" ctx c :: tr0 ++
         [E_Acquire Background (MaxRepair (config service)) a;
          E_Release (MaxRepair (config service));
          E_mon_TaskDone "Run" r].
Proof.
  intros H. unfold Run, mon_Task_defer, WaitForPendingRepairs in H.
  cbn [exec bind perform] in H.
  destruct (h _ (mon_Task "Run" ctx) s) as [c s0].
  rewrite !exec_bind in H.
  destruct (exec h (Loop_Run service fuel c
                      (processWhileQueueHasItems service fuel)) s0)
    as [[tr0 [r0|]] s1] eqn:Hloop; [| discriminate H].
  cbn [exec bind perform ev] in H.
  destruct (h _ (JobLimiter_Acquire Background (MaxRepair (config service))) s1)
    as [a s2].
  destruct (h _ (JobLimiter_Release (MaxRepair (config service))) s2)
    as [[] s3].
  cbn [exec bind perform ev] in H.
  destruct (h _ (mon_TaskDone "Run" r0) s3) as [[] s4].
  injection H as <- <- <-.
  exists c, tr0, s0, s1, a. split; [exact Hloop |].
  cbn [app]. rewrite <- app_assoc. reflexivity.
Qed.

(** ** These properties at work in the scripted environment *)

Lemma worker_delete_failure_is_job_failure_witness :
  result_of (scripted delete_fails) (worker Background queued_segment)
            empty_world
    = Some (Some (errs.New Error "failed to remove segment from queue: %v"
                    (errorString "queue unavailable"))) /\
  observations (trace_of (scripted delete_fails)
                  (worker Background queued_segment) empty_world) = [].
Proof.
  eapply (worker_delete_failure_is_job_failure (scripted delete_fails)
            Background queued_segment empty_world
            (final_of (scripted delete_fails)
               (worker Background queued_segment) empty_world)
            _ _ eq_refl (Derived 0) queued_segment).
  - exists (Derived 0), "bucket/queued". vm_compute. tauto.
  - vm_compute. tauto.
Defined.

Lemma worker_unexpected_error_still_deletes_witness :
  deletes (trace_of (scripted unexpected_failure)
             (worker Background queued_segment) empty_world)
    = [queued_segment] /\
  irrWrites (trace_of (scripted unexpected_failure)
               (worker Background queued_segment) empty_world) = [] /\
  In (E_log_Error "unexpected error repairing segment!"
        (errorString "segment no longer exists"))
     (trace_of (scripted unexpected_failure)
        (worker Background queued_segment) empty_world).
Proof.
  eapply (worker_unexpected_error_still_deletes (scripted unexpected_failure)
            Background queued_segment empty_world
            (final_of (scripted unexpected_failure)
               (worker Background queued_segment) empty_world)
            _ (result_of (scripted unexpected_failure)
                 (worker Background queued_segment) empty_world) eq_refl).
  - exists (Derived 0), "bucket/queued". vm_compute. tauto.
  - reflexivity.
Defined.

Lemma worker_store_calls_bounded_witness :
  (deletes (trace_of (scripted irreparable_store_down)
              (worker Background legacy_segment) empty_world) = [] \/
   deletes (trace_of (scripted irreparable_store_down)
              (worker Background legacy_segment) empty_world)
     = [legacy_segment] /\
   exists err,
     Repair_returned (trace_of (scripted irreparable_store_down)
                        (worker Background legacy_segment) empty_world)
                     true err) /\
  (irrWrites (trace_of (scripted irreparable_store_down)
                (worker Background legacy_segment) empty_world) = [] \/
   exists rec ie,
     irrWrites (trace_of (scripted irreparable_store_down)
                  (worker Background legacy_segment) empty_world) = [rec] /\
     Repair_returned (trace_of (scripted irreparable_store_down)
                        (worker Background legacy_segment) empty_world)
                     true (Some (irreparable ie))).
Proof.
  exact (worker_store_calls_bounded (scripted irreparable_store_down)
           Background legacy_segment empty_world
           (final_of (scripted irreparable_store_down)
              (worker Background legacy_segment) empty_world)
           (trace_of (scripted irreparable_store_down)
              (worker Background legacy_segment) empty_world)
           (result_of (scripted irreparable_store_down)
              (worker Background legacy_segment) empty_world) eq_refl).
Defined.

Lemma worker_nil_iff_clean_witness :
  result_of (scripted repaired) (worker Background queued_segment) empty_world
    = Some None /\
  result_of (scripted delete_fails) (worker Background queued_segment)
            empty_world <> Some None.
Proof.
  split.
  - apply (proj1 (worker_nil_iff_clean (scripted repaired) Background
                    queued_segment empty_world
                    (final_of (scripted repaired)
                       (worker Background queued_segment) empty_world)
                    (trace_of (scripted repaired)
                       (worker Background queued_segment) empty_world)
                    (result_of (scripted repaired)
                       (worker Background queued_segment) empty_world)
                    eq_refl)).
    split.
    + exists true, (Derived 0), "bucket/queued". vm_compute. tauto.
    + intros c seg' d. vm_compute. intros H.
      repeat (destruct H as [H | H]; [discriminate H |]). exact H.
  - intros Hnil.
    apply (proj1 (worker_nil_iff_clean (scripted delete_fails) Background
                    queued_segment empty_world
                    (final_of (scripted delete_fails)
                       (worker Background queued_segment) empty_world)
                    (trace_of (scripted delete_fails)
                       (worker Background queued_segment) empty_world)
                    (result_of (scripted delete_fails)
                       (worker Background queued_segment) empty_world)
                    eq_refl)) in Hnil.
    destruct Hnil as [_ Hnd].
    apply (Hnd (Derived 0) queued_segment (errorString "queue unavailable")).
    vm_compute. tauto.
Defined.

Lemma worker_passes_its_context_witness :
  exists c,
    In (E_mon_Task "worker" Background c)
       (trace_of (scripted irreparable_stored)
          (worker Background legacy_segment) empty_world) /\
    repairs (trace_of (scripted irreparable_stored)
               (worker Background legacy_segment) empty_world)
      = [(c, "bucket/legacy")] /\
    forall e c',
      In e (trace_of (scripted irreparable_stored)
              (worker Background legacy_segment) empty_world) ->
      downstream_ctx e = Some c' -> c' = c.
Proof.
  exact (worker_passes_its_context (scripted irreparable_stored) Background
           legacy_segment empty_world
           (final_of (scripted irreparable_stored)
              (worker Background legacy_segment) empty_world)
           (trace_of (scripted irreparable_stored)
              (worker Background legacy_segment) empty_world)
           (result_of (scripted irreparable_stored)
              (worker Background legacy_segment) empty_world) eq_refl).
Defined.

Lemma process_acquire_failure_witness :
  trace_of (scripted shutting_down) (process (NewService two_workers) Background)
           two_pending
    = [E_mon_Task "process" Background (Derived 0);
       E_Acquire (Derived 0) 1 (Some (errorString "context canceled"));
       E_mon_TaskDone "process" (Some (errorString "context canceled"))] /\
  result_of (scripted shutting_down)
            (process (NewService two_workers) Background) two_pending
    = Some (Some (errorString "context canceled")).
Proof.
  eapply (process_acquire_failure (NewService two_workers)
            (scripted shutting_down) Background two_pending
            _ _ (final_of (scripted shutting_down)
                   (process (NewService two_workers) Background) two_pending)
            (Derived 0) 1).
  - lazy -[job]. reflexivity.
  - lazy -[job]. tauto.
Defined.

Lemma process_hands_over_witness :
  spawned (trace_of (scripted repaired)
             (process (NewService two_workers) Background) two_pending)
    = [job (Derived 2) (Some {| Path_ := "bucket/a"; InsertedTime_ := 0 |})] /\
  releases (trace_of (scripted repaired)
              (process (NewService two_workers) Background) two_pending) = [] /\
  cancels (trace_of (scripted repaired)
             (process (NewService two_workers) Background) two_pending) = [] /\
  result_of (scripted repaired)
            (process (NewService two_workers) Background) two_pending
    = Some None.
Proof.
  eapply (process_hands_over (NewService two_workers)
            (scripted repaired) Background two_pending
            _ _ (final_of (scripted repaired)
                   (process (NewService two_workers) Background) two_pending)).
  - lazy -[job]. reflexivity.
  - lazy -[job]. tauto.
Defined.

Lemma drained_starts_one_job_per_step_witness :
  exists tr s1,
    drained (NewService two_workers) (scripted repaired) Background 2
            two_pending tr s1 /\
    List.length (spawned tr) = 2%nat /\
    acquires tr = [1; 1] /\
    releases tr = [] /\
    cancels tr = [].
Proof.
  eassert (Hd : drained (NewService two_workers) (scripted repaired)
                        Background 2 two_pending _ _).
  { eapply drained_S; [lazy -[job]; reflexivity |].
    eapply drained_S; [lazy -[job]; reflexivity |].
    apply drained_O. }
  do 2 eexists. split; [exact Hd |].
  exact (drained_starts_one_job_per_step _ _ _ _ _ _ _ Hd).
Defined.

Lemma processWhileQueueHasItems_returns_on_error_witness :
  exists n tr1 s1 tr2 e s2,
    drained (NewService two_workers) (scripted repaired) Background n
            two_pending tr1 s1 /\
    exec (scripted repaired) (process (NewService two_workers) Background) s1
      = (tr2, Some (Some e), s2) /\
    (n < 3)%nat /\
    None = drain_result e /\
    trace_of (scripted repaired)
      (processWhileQueueHasItems (NewService two_workers) 3 Background)
      two_pending = tr1 ++ tr2 ++ drain_log e.
Proof.
  apply (processWhileQueueHasItems_returns_on_error (NewService two_workers)
           (scripted repaired) Background 3 two_pending _ None
           (final_of (scripted repaired)
              (processWhileQueueHasItems (NewService two_workers) 3 Background)
              two_pending)).
  lazy -[job]. reflexivity.
Defined.

Lemma processWhileQueueHasItems_goes_on_witness :
  result_of (scripted repaired)
    (processWhileQueueHasItems (NewService two_workers) 2 Background)
    two_pending = None.
Proof.
  eassert (Hd : drained (NewService two_workers) (scripted repaired)
                        Background 2 two_pending _ _).
  { eapply drained_S; [lazy -[job]; reflexivity |].
    eapply drained_S; [lazy -[job]; reflexivity |].
    apply drained_O. }
  unfold result_of.
  rewrite (processWhileQueueHasItems_goes_on _ _ _ _ _ _ _ Hd).
  reflexivity.
Defined.

Lemma job_gives_back_witness :
  releases (trace_of (scripted unexpected_failure)
              (job (Derived 7) queued_segment) empty_world) = [1] /\
  cancels (trace_of (scripted unexpected_failure)
             (job (Derived 7) queued_segment) empty_world) = [Derived 7] /\
  In (E_log_Error "repair worker failed:"
        (errs.Wrap Error (errorString "segment no longer exists")))
     (trace_of (scripted unexpected_failure)
        (job (Derived 7) queued_segment) empty_world).
Proof.
  destruct (job_gives_back (scripted unexpected_failure) (Derived 7)
              queued_segment empty_world
              (trace_of (scripted unexpected_failure)
                 (job (Derived 7) queued_segment) empty_world)
              (result_of (scripted unexpected_failure)
                 (job (Derived 7) queued_segment) empty_world)
              (final_of (scripted unexpected_failure)
                 (job (Derived 7) queued_segment) empty_world)
              eq_refl)
    as (_ & Hrel & Hcan & _ & _ & _ & Hlog).
  split; [exact Hrel |]. split; [exact Hcan |].
  apply Hlog. vm_compute. tauto.
Defined.

(** Two segments are pending and nobody runs the jobs: the main goroutine
    starts both, finds the queue empty, is told to stop, and then waits at
    the barrier, its [Run] not returned. *)
Example Run_waits_for_the_jobs :
  let st := fst (simulate_main (scripted repaired) 100
                   (start two_workers 5 Background) two_pending) in
  executing (jobs st) = 2%nat /\
  finished (main st) = false /\
  next_release (main st) = None /\
  semaphore.canAcquire (sem st) (MaxRepair two_workers) = false.
Proof. vm_compute. repeat split. Qed.


Lemma semaphore_never_over_released_witness :
  0 <= semaphore.cur
         (sem (fst (simulate_main (scripted repaired) 100
                      (start two_workers 5 Background) three_pending)))
    <= MaxRepair two_workers /\
  forall j n,
    In j (jobs (fst (simulate_main (scripted repaired) 100
                       (start two_workers 5 Background) three_pending))) ->
    next_release j = Some n ->
    semaphore.canRelease
      (sem (fst (simulate_main (scripted repaired) 100
                   (start two_workers 5 Background) three_pending))) n = true.
Proof.
  destruct (semaphore_never_over_released two_workers 5 Background
              (fst (simulate_main (scripted repaired) 100
                      (start two_workers 5 Background) three_pending)))
    as (Hcur & _ & _ & Hjobs).
  - cbn. lia.
  - apply simulate_main_reachable.
  - split; [exact Hcur | exact Hjobs].
Defined.

Lemma Run_ends_with_barrier_witness :
  exists tr0 a,
    trace_of (scripted repaired) (Run (NewService two_workers) 5 Background)
             empty_world
    = E_mon_Task "Run" Background (Derived 0) :: tr0 ++
      [E_Acquire Background 2 a; E_Release 2; E_mon_TaskDone "Run" None].
Proof.
  destruct (Run_ends_with_barrier (NewService two_workers) (scripted repaired)
              5 Background empty_world
              (trace_of (scripted repaired)
                 (Run (NewService two_workers) 5 Background) empty_world)
              None
              (final_of (scripted repaired)
                 (Run (NewService two_workers) 5 Background) empty_world))
    as (c & tr0 & s0 & s1 & a & _ & Htr).
  - vm_compute. reflexivity.
  - exists tr0, a. rewrite Htr.
    assert (Hc : c = Derived 0).
    { vm_compute in Htr. injection Htr as Hc _. congruence. }
    rewrite Hc. reflexivity.
Defined.

(** * The notification endpoint *)

Lemma nexec_bind {S R T : Type} (h : nhandler S) (p : nprog R)
    (f : R -> nprog T) :
  forall s,
    nexec h (nbind p f) s =
    let '(tr1, r1, s1) := nexec h p s in
    let '(tr2, r2, s2) := nexec h (f r1) s1 in
    (tr1 ++ tr2, r2, s2).
Proof.
  induction p as [r | X c k IH]; intros s; cbn [nbind nexec].
  - destruct (nexec h (f r) s) as [[tr2 r2] s2]; reflexivity.
  - destruct (h X c s) as [x s1]. rewrite IH.
    destruct (nexec h (k x) s1) as [[tr1 r1] s2].
    destruct (nexec h (f r1) s2) as [[tr2 r2] s3]; reflexivity.
Qed.

Ltac nnext_call H :=
  cbn [nexec nbind nperform] in H;
  match type of H with
  | context [?h ?X ?c ?s] =>
      match type of h with
      | nhandler _ => destruct (h X c s) as [? ?]
      end
  end.

Ltac nsplit_answer H :=
  match type of H with
  | context [match ?x with _ => _ end] =>
      is_var x;
      let T := type of x in
      let T' := eval hnf in T in
      match T' with
      | option _ => destruct x
      | bool => destruct x
      | prod _ _ => destruct x
      end
  | context [errs.Combine (?x :: _)] => is_var x; destruct x
  | context [errs.Combine (_ :: ?x :: _)] => is_var x; destruct x
  end.

Ltac nrun H :=
  repeat first
    [ nnext_call H
    | nsplit_answer H
    | progress cbn [nexec nbind nperform errs.Combine errs.sanitize] in H ];
  cbn [nexec nbind nperform nev fst snd] in H;
  injection H as <- <- <-.

Lemma Has_own_class class e : errs.Has class (errorT class e) = true.
Proof. cbn [errs.Has]. rewrite String.eqb_refl. reflexivity. Qed.

Section EndpointFacts.

Variable notification_Error : string.
Context {S : Type} (h : nhandler S).
Variables (ctx : Context) (message : NotificationMessage).

(** X15. When the node cannot be dialed, [processNotificationRPC] sends
    nothing and closes nothing; it returns an empty response (not nil)
    and an error of the package's class.  A network error is passed on in
    that error; any other error is logged and replaced by a message that
    says no more than the address. *)
Theorem processNotificationRPC_dial_failure s tr res s' c a i cl e is_net :
  nexec h (processNotificationRPC notification_Error ctx message) s
    = (tr, res, s') ->
  In (N_newClient c a i (cl, Some (e, is_net))) tr ->
  fst res = Some empty_response /\
  sends tr = [] /\
  closes tr = [] /\
  (exists e', snd res = Some e' /\ errs.Has notification_Error e' = true) /\
  (is_net = true ->
   snd res = Some (errs.New notification_Error
                     ("failed to connect to " ++ Address message ++ ": %v") e)
   /\ tr = [N_newClient c a i (cl, Some (e, is_net))]) /\
  (is_net = false ->
   snd res = Some (errorT notification_Error
                     (errorString
                        ("couldn't connect to client at addr: "
                         ++ Address message ++ " due to internal error.")))
   /\ In (N_log "warn" "internal error" [zap_ErrorText "error" e]) tr).
Proof.
  intros H HD. revert HD. unfold processNotificationRPC in H.
  nrun H; intros HD; pin HD.
  all: split; [reflexivity |]; split; [reflexivity |];
       split; [reflexivity |]; split;
       [ eexists; split; [reflexivity | apply Has_own_class] |].
  all: split; intros Hn; try discriminate Hn; split; try reflexivity.
  cbn [In]. auto.
Qed.

(** X16. When the node is dialed, [processNotificationRPC] sends the
    message once and then closes the client once; it returns the node's
    response and the two errors combined, so that a failing [Close] fails
    a send that went through. *)
Theorem processNotificationRPC_closes_client s tr res s' c a i cl :
  nexec h (processNotificationRPC notification_Error ctx message) s
    = (tr, res, s') ->
  In (N_newClient c a i (cl, None)) tr ->
  exists resp err closeErr,
    tr = [N_newClient ctx (Address message) (NodeId message) (cl, None);
          N_ProcessNotification cl ctx message resp err;
          N_Close cl closeErr] /\
    res = (resp, errs.Combine [err; closeErr]) /\
    (err = None -> snd res = closeErr) /\
    (closeErr = None -> snd res = err).
Proof.
  intros H HD. revert HD. unfold processNotificationRPC in H.
  nrun H; intros HD; pin HD.
  all: repeat match goal with x : option error |- _ => destruct x end.
  all: do 3 eexists; split; [reflexivity |]; split; [reflexivity |];
       split; intros Hn; try discriminate Hn; reflexivity.
Qed.

(** X17. When [ProcessNotification] returns an error, it is the RPC that
    failed, after the RPC limit allowed it; the email limit was not
    consulted and the limiter's counters were not incremented. *)
Theorem ProcessNotification_failure_skips_limiter s tr msg e s' :
  nexec h (ProcessNotification notification_Error ctx message) s
    = (tr, (msg, Some e), s') ->
  In (N_CheckRPCLimit (NodeId message) true) tr /\
  email_checks tr = [] /\
  increments tr = [].
Proof.
  intros H. remember (msg, Some e) as res eqn:Hres. revert Hres.
  unfold ProcessNotification, processNotificationEmail,
    processNotificationRPC in H.
  nrun H; intros Hres; try discriminate Hres.
  all: repeat split; cbn [In]; auto 10.
Qed.

(** X18. When [ProcessNotification] returns no error, it incremented the
    limiter exactly once, for the message's node, with the answers of the
    two limit checks as the sent flags (email is counted as sent as soon
    as it is allowed).  If the RPC limit refused, nothing was dialed and
    the response is nil. *)
Theorem ProcessNotification_success_counts s tr msg s' :
  nexec h (ProcessNotification notification_Error ctx message) s
    = (tr, (msg, None), s') ->
  exists rpc email,
    In (N_CheckRPCLimit (NodeId message) rpc) tr /\
    In (N_CheckEmailLimit (NodeId message) email) tr /\
    increments tr = [(NodeId message, email, rpc)] /\
    (rpc = false -> msg = None /\ dials tr = []) /\
    (rpc = true -> dials tr = [(Address message, NodeId message)]).
Proof.
  intros H. remember (msg, @None error) as res eqn:Hres. revert Hres.
  unfold ProcessNotification, processNotificationEmail,
    processNotificationRPC in H.
  nrun H; intros Hres; try discriminate Hres; injection Hres as <-.
  all: do 2 eexists; split; [cbn [In]; auto 10 |];
       split; [cbn [In]; auto 10 |]; split; [reflexivity |];
       split; intros Hn; try discriminate Hn; try split; reflexivity.
Qed.

End EndpointFacts.

(** ** The broadcast *)

Lemma int64_wrap_succ z : int64_wrap (int64_wrap z + 1) = int64_wrap (z + 1).
Proof.
  unfold int64_wrap.
  replace ((z + 2 ^ 63) mod 2 ^ 64 - 2 ^ 63 + 1 + 2 ^ 63)
    with ((z + 2 ^ 63) mod 2 ^ 64 + 1) by lia.
  rewrite Zplus_mod_idemp_l.
  replace (z + 2 ^ 63 + 1) with (z + 1 + 2 ^ 63) by lia.
  reflexivity.
Qed.

Lemma int64_wrap_small z : - 2 ^ 63 <= z < 2 ^ 63 -> int64_wrap z = z.
Proof.
  unfold int64_wrap. intros Hz. rewrite Z.mod_small; lia.
Qed.



Section Broadcast.

Variable notification_Error : string.
Context {S : Type} (h : nhandler S).
Variables (ctx : Context) (message : string).


Lemma broadcast_loop ids :
  forall s tr failed s1 sentCount failed0,
    notified notification_Error h ctx message ids s tr failed s1 ->
    nexec h (broadcast notification_Error ctx message ids sentCount failed0) s
    = (tr,
       (Nat.iter (List.length ids) (fun z => int64_wrap (z + 1)) sentCount,
        failed0 ++ failed),
       s1).
Proof.
  induction ids as [|node ids IH]; intros s tr failed s1 sentCount failed0 Hn;
    inversion Hn as [s0 | node0 ids0 s0 tr1 msg err sa tr2 failed' sb Hone Hrest];
    subst.
  - cbn [broadcast nexec List.length]. rewrite app_nil_r. reflexivity.
  - cbn [broadcast]. rewrite nexec_bind.
    unfold broadcast_message in Hone. rewrite Hone.
    rewrite (IH _ _ _ _ _ _ Hrest).
    cbn [List.length]. rewrite Nat.iter_succ_r.
    destruct err; [rewrite <- app_assoc |]; reflexivity.
Qed.

Lemma iter_int64_wrap n :
  Nat.iter n (fun z => int64_wrap (z + 1)) 0 = int64_wrap (Z.of_nat n).
Proof.
  induction n as [|n IH]; [reflexivity |].
  rewrite Nat.iter_succ, IH, int64_wrap_succ.
  f_equal. lia.
Qed.

(** X19. [sendBroadcastNotification] runs [ProcessNotification] for the
    nodes in turn and then writes two log entries: the number of nodes it
    went through (as a Go [int]), whether the sends failed or not, and
    the ids of the nodes for which [ProcessNotification] returned an
    error, in order. *)
Theorem sendBroadcastNotification_logs ids s tr failed s1 :
  notified notification_Error h ctx message ids s tr failed s1 ->
  fst (nexec h (sendBroadcastNotification notification_Error ctx message ids) s)
  = (tr ++
     [N_log "info" "sent to nodes"
        [zap_Int "count" (int64_wrap (Z.of_nat (List.length ids)))];
      N_log "debug" "notification to the following nodes failed"
        [zap_Strings "nodeIDs" failed]],
     tt) /\
  (Z.of_nat (List.length ids) < 2 ^ 63 ->
   int64_wrap (Z.of_nat (List.length ids)) = Z.of_nat (List.length ids)).
Proof.
  intros Hn. split.
  - unfold sendBroadcastNotification. rewrite nexec_bind.
    rewrite (broadcast_loop _ _ _ _ _ 0 [] Hn).
    rewrite iter_int64_wrap. cbn [app nexec nbind nperform nev].
    destruct (h unit _ s1) as [[] s2]. destruct (h unit _ s2) as [[] s3].
    reflexivity.
  - intros Hlen. apply int64_wrap_small. lia.
Qed.


(** Every broadcast runs to its end. *)
Lemma notified_exists ids :
  forall s, exists tr failed s1,
    notified notification_Error h ctx message ids s tr failed s1.
Proof.
  induction ids as [|node ids IH]; intros s.
  - exists [], [], s. constructor.
  - destruct (nexec h (ProcessNotification notification_Error ctx
                         (broadcast_message message node)) s)
      as [[tr1 [msg err]] s1] eqn:Hone.
    destruct (IH s1) as (tr2 & failed & s2 & Hrest).
    do 3 eexists. eapply notified_cons; eassumption.
Qed.

End Broadcast.

(** ** The endpoint in its scripted environment *)

Example broadcast_with_node_b_down :
  fst (nexec (nscripted node_b_down)
         (sendBroadcastNotification "notification" Background "hello"
            three_nodes) O)
  = ([N_log "debug" "sending to node"
        [zap_String "address" "a:7777"; zap_String "message" "hello"];
      N_CheckRPCLimit "node-a" true;
      N_newClient Background "a:7777" "node-a" (2%nat, None);
      N_ProcessNotification 2%nat Background
        (broadcast_message "hello" {| Id := "node-a"; Node_Address := "a:7777" |})
        (Some {| response_payload := "ok" |}) None;
      N_Close 2%nat None;
      N_CheckEmailLimit "node-a" true;
      N_IncrementLimiter "node-a" true true;
      N_log "debug" "sending to node"
        [zap_String "address" "b:7777"; zap_String "message" "hello"];
      N_CheckRPCLimit "node-b" true;
      N_newClient Background "b:7777" "node-b"
        (9%nat, Some (errorString "dial tcp: connection refused", true));
      N_log "debug" "sending to node"
        [zap_String "address" "c:7777"; zap_String "message" "hello"];
      N_CheckRPCLimit "node-c" true;
      N_newClient Background "c:7777" "node-c" (12%nat, None);
      N_ProcessNotification 12%nat Background
        (broadcast_message "hello" {| Id := "node-c"; Node_Address := "c:7777" |})
        (Some {| response_payload := "ok" |}) None;
      N_Close 12%nat None;
      N_CheckEmailLimit "node-c" true;
      N_IncrementLimiter "node-c" true true;
      N_log "info" "sent to nodes" [zap_Int "count" 3];
      N_log "debug" "notification to the following nodes failed"
        [zap_Strings "nodeIDs" ["node-b"]]],
     tt).
Proof. vm_compute. reflexivity. Qed.

Lemma processNotificationRPC_dial_failure_witness :
  fst (result_of_n (nscripted dialer_broken)
         (processNotificationRPC "notification" Background hello_a) O)
    = Some empty_response /\
  snd (result_of_n (nscripted dialer_broken)
         (processNotificationRPC "notification" Background hello_a) O)
    = Some (errorT "notification"
              (errorString
                 "couldn't connect to client at addr: a:7777 due to internal error."))
  /\
  closes (trace_of_n (nscripted dialer_broken)
            (processNotificationRPC "notification" Background hello_a) O) = [].
Proof.
  destruct (processNotificationRPC_dial_failure "notification"
              (nscripted dialer_broken) Background hello_a O
              (trace_of_n (nscripted dialer_broken)
                 (processNotificationRPC "notification" Background hello_a) O)
              (result_of_n (nscripted dialer_broken)
                 (processNotificationRPC "notification" Background hello_a) O)
              (snd (nexec (nscripted dialer_broken)
                      (processNotificationRPC "notification" Background hello_a)
                      O))
              Background "a:7777" "node-a" O
              (errorString "dial tcp: connection refused") false)
    as (Hresp & _ & Hclose & _ & _ & Hinternal).
  - reflexivity.
  - vm_compute. tauto.
  - split; [exact Hresp |]. split; [| exact Hclose].
    destruct (Hinternal eq_refl) as [Herr _]. exact Herr.
Defined.

Lemma processNotificationRPC_closes_client_witness :
  closes (trace_of_n (nscripted close_fails)
            (processNotificationRPC "notification" Background hello_a) O)
    = [O] /\
  result_of_n (nscripted close_fails)
    (processNotificationRPC "notification" Background hello_a) O
    = (Some {| response_payload := "ok" |},
       Some (errorString "close: broken pipe")).
Proof.
  destruct (processNotificationRPC_closes_client "notification"
              (nscripted close_fails) Background hello_a O
              (trace_of_n (nscripted close_fails)
                 (processNotificationRPC "notification" Background hello_a) O)
              (result_of_n (nscripted close_fails)
                 (processNotificationRPC "notification" Background hello_a) O)
              (snd (nexec (nscripted close_fails)
                      (processNotificationRPC "notification" Background hello_a)
                      O))
              Background "a:7777" "node-a" O)
    as (resp & err & closeErr & Htr & _).
  - reflexivity.
  - vm_compute. tauto.
  - split; [rewrite Htr; reflexivity | vm_compute; reflexivity].
Defined.

Lemma ProcessNotification_failure_skips_limiter_witness :
  In (N_CheckRPCLimit "node-a" true)
     (trace_of_n (nscripted dialer_broken)
        (ProcessNotification "notification" Background hello_a) O) /\
  email_checks (trace_of_n (nscripted dialer_broken)
                  (ProcessNotification "notification" Background hello_a) O)
    = [] /\
  increments (trace_of_n (nscripted dialer_broken)
                (ProcessNotification "notification" Background hello_a) O)
    = [].
Proof.
  eapply (ProcessNotification_failure_skips_limiter "notification"
            (nscripted dialer_broken) Background hello_a O).
  vm_compute. reflexivity.
Defined.

Lemma ProcessNotification_success_counts_witness :
  increments (trace_of_n (nscripted close_fails)
                (ProcessNotification "notification" Background hello_a) O)
    = [] /\
  increments (trace_of_n (nscripted all_fine)
                (ProcessNotification "notification" Background hello_a) O)
    = [("node-a", true, true)].
Proof.
  split; [vm_compute; reflexivity |].
  destruct (ProcessNotification_success_counts "notification"
              (nscripted all_fine) Background hello_a O
              (trace_of_n (nscripted all_fine)
                 (ProcessNotification "notification" Background hello_a) O)
              (Some {| response_payload := "ok" |})
              (snd (nexec (nscripted all_fine)
                      (ProcessNotification "notification" Background hello_a)
                      O)))
    as (rpc & email & Hrpc & Hemail & Hinc & _).
  - reflexivity.
  - rewrite Hinc.
    vm_compute in Hrpc, Hemail.
    assert (Hr : rpc = true).
    { repeat (destruct Hrpc as [Hrpc | Hrpc];
              [try discriminate Hrpc; try (injection Hrpc as <-; reflexivity) |]).
      contradiction. }
    assert (He : email = true).
    { repeat (destruct Hemail as [Hemail | Hemail];
              [try discriminate Hemail;
               try (injection Hemail as <-; reflexivity) |]).
      contradiction. }
    rewrite Hr, He. reflexivity.
Defined.

Lemma sendBroadcastNotification_logs_witness :
  exists tr,
    fst (nexec (nscripted node_b_down)
           (sendBroadcastNotification "notification" Background "hello"
              three_nodes) O)
    = (tr ++
       [N_log "info" "sent to nodes" [zap_Int "count" 3];
        N_log "debug" "notification to the following nodes failed"
          [zap_Strings "nodeIDs" ["node-b"]]],
       tt).
Proof.
  eassert (Hn : notified "notification" (nscripted node_b_down) Background
                  "hello" three_nodes O _ _ _).
  { eapply notified_cons; [vm_compute; reflexivity |].
    eapply notified_cons; [vm_compute; reflexivity |].
    eapply notified_cons; [vm_compute; reflexivity |].
    apply notified_nil. }
  eexists.
  exact (proj1 (sendBroadcastNotification_logs _ _ _ _ _ _ _ _ _ Hn)).
Defined.

